(** * Trigger / acquisition handshake of [examples/ssb-live-reconstruction.ipynb]

    The notebook arms a Merlin detector over a control channel, hands a
    [trigger] callback to the live acquisition runner, lets that callback
    push the (possibly blocking) scan function [do_scan] to a one-thread
    [ThreadPoolExecutor], remembers the returned future in a global
    [AcquisitionState], and awaits that future in the [finally] block that
    surrounds [ctx.run_udf].

    Python code is embedded as programs of a small free monad ([prog]) whose
    nodes are the calls the code makes to the outside (stdout, the control
    channel, the pool, the global state).  Threads are interleaved by an
    explicit schedule; a call that blocks is a step that leaves the thread
    where it is. *)

From Stdlib Require Import ZArith PrimFloat Lia.
From stdpp Require Import base list strings.

Open Scope string_scope.
Open Scope list_scope.

(** ** Python values, exceptions, results *)

Definition handle := nat.

(** A Python [float] is an IEEE 754 double: [VFloat] carries a binary64
    number, and float arithmetic is that of [PrimFloat]. *)
Inductive value :=
| VNone
| VInt (z : Z)
| VFloat (x : float)
| VStr (s : string)
| VFuture (h : handle).

Inductive exn :=
| ValueError
| ConnectionError
| ProtocolError
| IOError
| AttributeError
| RuntimeError (msg : string).

Inductive result (A : Type) :=
| Ok (a : A)
| Raise (e : exn).
Arguments Ok {A} a.
Arguments Raise {A} e.

(** ** Programs

    [Vis ev k] performs the call [ev] and continues with [k] on its return
    value or on the exception it raised. *)

Inductive prog (E : Type) :=
| Ret (v : value)
| Throw (e : exn)
| Vis (ev : E) (k : result value -> prog E).
Arguments Ret {E} v.
Arguments Throw {E} e.
Arguments Vis {E} ev k.

(** An exception raised by a call propagates unless something catches it. *)
Definition reply {E} (r : result value) : prog E :=
  match r with
  | Ok v => Ret v
  | Raise e => Throw e
  end.

Definition call {E} (ev : E) : prog E := Vis ev reply.

(** Sequencing of statements: [p; k]. *)
Fixpoint bind {E} (p : prog E) (k : value -> prog E) : prog E :=
  match p with
  | Ret v => k v
  | Throw e => Throw e
  | Vis ev h => Vis ev (fun r => bind (h r) k)
  end.

(** [try: p finally: fin].  The [finally] suite runs on both exits of [p];
    an exception raised by the suite itself replaces the pending one. *)
Fixpoint try_finally {E} (p fin : prog E) : prog E :=
  match p with
  | Ret v => bind fin (fun _ => Ret v)
  | Throw e => bind fin (fun _ => Throw e)
  | Vis ev h => Vis ev (fun r => try_finally (h r) fin)
  end.

(** Programs over a smaller interface used inside a larger one. *)
Fixpoint embed {E F} (f : E -> F) (p : prog E) : prog F :=
  match p with
  | Ret v => Ret v
  | Throw e => Throw e
  | Vis ev h => Vis (f ev) (fun r => embed f (h r))
  end.

Notation "x <- p ;; q" := (bind p (fun x => q))
  (at level 100, p at next level, right associativity).
Notation "p ;; q" := (bind p (fun _ => q))
  (at level 100, right associativity).

(** ** Calls available to every thread: stdout, clock, control channel *)

(** What [print] is given: a literal, or an f-string ending in a value. *)
Inductive text :=
| Str (s : string)
| Fmt (prefix : string) (v : value).

Inductive io_event :=
| Print (t : text)
| Sleep (secs : nat)
| ChanEnter
| ChanExit
| ChanSet (key : string) (v : value)
| ChanCmd (name : string).

(** [with c: body] is [c.__enter__()], the body, and [c.__exit__(...)] on
    every exit of the body.  [__exit__] returns [None], so an exception of
    the body propagates after it. *)
Definition with_c (body : prog io_event) : prog io_event :=
  call ChanEnter ;; try_finally body (call ChanExit).

(** ** ControlChannel ([MerlinControl]) *)

Inductive command :=
| CmdSet (key : string) (v : value)
| CmdCmd (name : string).

(** Modelled from the spec: [MerlinControl] belongs to the detector library,
    not to this repository.  Spec 4.1: opening establishes a connection or
    fails; [set] and [cmd] send a command and fail on the response or on
    the transport; the channel is closed on scoped exit; nothing is retried.
    [wire] holds every command sent over the connection, in order, whatever
    the answer to it was.  [script] is the behaviour of the endpoint: the
    outcome of each coming request in turn, success once it is used up. *)
Record channel := {
  connected : bool;
  wire : list command;
  script : list (option exn)
}.

Definition MerlinControl (endpoint : list (option exn)) : channel :=
  {| connected := false; wire := []; script := endpoint |}.

Definition next_outcome (endpoint : list (option exn))
  : option exn * list (option exn) :=
  match endpoint with
  | [] => (None, [])
  | o :: rest => (o, rest)
  end.

Definition chan_enter (ch : channel) : result value * channel :=
  match next_outcome (script ch) with
  | (Some e, rest) =>
      (Raise e, {| connected := connected ch; wire := wire ch; script := rest |})
  | (None, rest) =>
      (Ok VNone, {| connected := true; wire := wire ch; script := rest |})
  end.

Definition chan_exit (ch : channel) : result value * channel :=
  (Ok VNone, {| connected := false; wire := wire ch; script := script ch |}).

(** The command goes out first; the exception, if any, comes with the
    answer.  Nothing can be sent on a channel that is not open. *)
Definition chan_send (m : command) (ch : channel) : result value * channel :=
  if connected ch then
    match next_outcome (script ch) with
    | (Some e, rest) =>
        (Raise e, {| connected := true; wire := wire ch ++ [m]; script := rest |})
    | (None, rest) =>
        (Ok VNone, {| connected := true; wire := wire ch ++ [m]; script := rest |})
    end
  else (Raise IOError, ch).

(** ** What the threads share besides the pool *)

Record world := {
  c : channel;
  stdout : list text
}.

Definition perform_io (ev : io_event) (w : world) : result value * world :=
  match ev with
  | Print t => (Ok VNone, {| c := c w; stdout := stdout w ++ [t] |})
  | Sleep _ => (Ok VNone, w)
  | ChanEnter =>
      let (r, ch) := chan_enter (c w) in (r, {| c := ch; stdout := stdout w |})
  | ChanExit =>
      let (r, ch) := chan_exit (c w) in (r, {| c := ch; stdout := stdout w |})
  | ChanSet key v =>
      let (r, ch) := chan_send (CmdSet key v) (c w) in
      (r, {| c := ch; stdout := stdout w |})
  | ChanCmd name =>
      let (r, ch) := chan_send (CmdCmd name) (c w) in
      (r, {| c := ch; stdout := stdout w |})
  end.

(** A program over stdout and the channel run to its end with nobody else
    touching the world: its outcome, the world it leaves, and the calls it
    made with their answers. *)
Fixpoint run_io (p : prog io_event) (w : world)
  : result value * world * list (io_event * result value) :=
  match p with
  | Ret v => (Ok v, w, [])
  | Throw e => (Raise e, w, [])
  | Vis ev k =>
      let (r, w1) := perform_io ev w in
      let '(out, w2, tr) := run_io (k r) w1 in
      (out, w2, (ev, r) :: tr)
  end.

(** ** AcquisitionState (cell 10) *)

Record AcquisitionState := {
  trigger_result : value
}.

(** [__init__]: [self.trigger_result = None]. *)
Definition AcquisitionState_init : AcquisitionState :=
  {| trigger_result := VNone |}.

(** [set_trigger_result]: [self.trigger_result = result]. *)
Definition set_trigger_result (self : AcquisitionState) (result : value)
  : AcquisitionState :=
  {| trigger_result := result |}.

(** ** The pool: [concurrent.futures.ThreadPoolExecutor]

    A work item is the submitted function with its future.  [submit] creates
    the future, queues the item and returns; a free worker thread takes the
    oldest queued item, marks its future running, runs the function and
    stores its return value or its exception in the future.  There are never
    more than [max_workers] worker threads.  A background function here is a
    program over stdout and the control channel. *)

Inductive future_state :=
| Pending
| Running
| Finished (r : result value).

Record executor := {
  max_workers : nat;
  work_queue : list (handle * prog io_event);
  threads : list (handle * prog io_event);
  futures : list future_state
}.

Definition ThreadPoolExecutor (n : nat) : executor :=
  {| max_workers := n; work_queue := []; threads := []; futures := [] |}.

Definition submit (fn : prog io_event) (ex : executor) : handle * executor :=
  let fut := length (futures ex) in
  (fut, {| max_workers := max_workers ex;
           work_queue := work_queue ex ++ [(fut, fn)];
           threads := threads ex;
           futures := futures ex ++ [Pending] |}).

(** ** Calls of the main thread *)

Inductive runner_event :=
| RecvFrame.

Inductive main_event :=
| IO (ev : io_event)
| Runner (ev : runner_event)
| ReadTriggerResult
| SetTriggerResult (v : value)
| PoolSubmit (fn : prog io_event)
| FutureResult (fut : handle).

(** ** Configurations and steps *)

Record config := {
  main : prog main_event;
  shared : world;
  acquisition_state : AcquisitionState;
  pool : executor
}.

Inductive action :=
| Main
| Start
| Work (i : nat).

Inductive label :=
| LMain (ev : main_event) (r : result value)
| LStart (fut : handle)
| LWork (fut : handle) (ev : io_event) (r : result value)
| LFinish (fut : handle) (r : result value).

Definition returned (cfg : config) (ev : main_event) (r : result value)
    (p : prog main_event) (w : world) (st : AcquisitionState) (ex : executor)
  : config * list label :=
  ({| main := p; shared := w; acquisition_state := st; pool := ex |},
   [LMain ev r]).

(** One step of the main thread.  [Future.result()] returns or re-raises
    what a finished future holds and blocks on any other. *)
Definition step_main (cfg : config) : config * list label :=
  match main cfg with
  | Ret _ | Throw _ => (cfg, [])
  | Vis ev k =>
      let w := shared cfg in
      let st := acquisition_state cfg in
      let ex := pool cfg in
      match ev with
      | IO e =>
          let (r, w') := perform_io e w in returned cfg ev r (k r) w' st ex
      | Runner RecvFrame =>
          returned cfg ev (Ok VNone) (k (Ok VNone)) w st ex
      | ReadTriggerResult =>
          let r := Ok (trigger_result st) in returned cfg ev r (k r) w st ex
      | SetTriggerResult v =>
          returned cfg ev (Ok VNone) (k (Ok VNone)) w (set_trigger_result st v) ex
      | PoolSubmit fn =>
          let (fut, ex') := submit fn ex in
          let r := Ok (VFuture fut) in returned cfg ev r (k r) w st ex'
      | FutureResult fut =>
          match futures ex !! fut with
          | Some (Finished r) => returned cfg ev r (k r) w st ex
          | _ => (cfg, [])
          end
      end
  end.

(** A free worker thread takes the oldest queued work item. *)
Definition step_start (cfg : config) : config * list label :=
  let ex := pool cfg in
  match work_queue ex with
  | (fut, fn) :: rest =>
      if decide (length (threads ex) < max_workers ex) then
        ({| main := main cfg; shared := shared cfg;
            acquisition_state := acquisition_state cfg;
            pool := {| max_workers := max_workers ex;
                       work_queue := rest;
                       threads := threads ex ++ [(fut, fn)];
                       futures := <[fut := Running]> (futures ex) |} |},
         [LStart fut])
      else (cfg, [])
  | [] => (cfg, [])
  end.

Definition finish (cfg : config) (i : nat) (fut : handle) (r : result value)
  : config * list label :=
  let ex := pool cfg in
  ({| main := main cfg; shared := shared cfg;
      acquisition_state := acquisition_state cfg;
      pool := {| max_workers := max_workers ex;
                 work_queue := work_queue ex;
                 threads := delete i (threads ex);
                 futures := <[fut := Finished r]> (futures ex) |} |},
   [LFinish fut r]).

(** One step of the [i]-th busy worker thread. *)
Definition step_work (i : nat) (cfg : config) : config * list label :=
  let ex := pool cfg in
  match threads ex !! i with
  | None => (cfg, [])
  | Some (fut, Ret v) => finish cfg i fut (Ok v)
  | Some (fut, Throw e) => finish cfg i fut (Raise e)
  | Some (fut, Vis ev k) =>
      let (r, w') := perform_io ev (shared cfg) in
      ({| main := main cfg; shared := w';
          acquisition_state := acquisition_state cfg;
          pool := {| max_workers := max_workers ex;
                     work_queue := work_queue ex;
                     threads := <[i := (fut, k r)]> (threads ex);
                     futures := futures ex |} |},
       [LWork fut ev r])
  end.

Definition step (a : action) (cfg : config) : config * list label :=
  match a with
  | Main => step_main cfg
  | Start => step_start cfg
  | Work i => step_work i cfg
  end.

Fixpoint exec (sch : list action) (cfg : config) : config * list label :=
  match sch with
  | [] => (cfg, [])
  | a :: rest =>
      let (cfg1, l1) := step a cfg in
      let (cfg2, l2) := exec rest cfg1 in
      (cfg2, l1 ++ l2)
  end.

(** What the main thread did, in order. *)
Fixpoint main_trace (tr : list label) : list (main_event * result value) :=
  match tr with
  | [] => []
  | LMain ev r :: rest => (ev, r) :: main_trace rest
  | _ :: rest => main_trace rest
  end.

(** ** The notebook *)

Record Shape := {
  nav : list Z;
  sig : list Z
}.

Record acquisition := {
  shape : Shape
}.

(** [a, b = t] for a tuple [t]. *)
Definition unpack2 (t : list Z) : result (Z * Z) :=
  match t with
  | [a; b] => Ok (a, b)
  | _ => Raise ValueError
  end.

(** Cell 9.  Each function is handed the one control object [c].
    [dwell_time * 1e3] is a product of doubles. *)
Definition merlin_setup (dwell_time : float) (depth : Z)
    (save_path : option string) : prog io_event :=
  call (Print (Str "Setting Merlin acquisition parameters")) ;;
  call (ChanSet "CONTINUOUSRW" (VInt 1)) ;;
  call (ChanSet "ACQUISITIONTIME" (VFloat (dwell_time * 1000)%float)) ;;
  call (ChanSet "COUNTERDEPTH" (VInt depth)) ;;
  call (ChanSet "TRIGGERSTART" (VInt 5)) ;;
  call (ChanSet "RUNHEADLESS" (VInt 1)) ;;
  call (ChanSet "FILEFORMAT" (VInt 2)) ;;
  match save_path with
  | Some path =>
      call (ChanSet "IMAGESPERFILE" (VInt 256)) ;;
      call (ChanSet "FILEENABLE" (VInt 1)) ;;
      call (ChanSet "USETIMESTAMPING" (VInt 0)) ;;
      call (ChanSet "FILEFORMAT" (VInt 2)) ;;
      call (ChanSet "FILEDIRECTORY" (VStr path))
  | None =>
      call (ChanSet "FILEENABLE" (VInt 0))
  end ;;
  call (Print (Str "Finished Merlin setup.")) ;;
  Ret VNone.

Definition microscope_setup (dwell_time : float) : prog io_event :=
  Ret VNone.

Definition arm : prog io_event :=
  call (Print (Str "Arming Merlin...")) ;;
  call (ChanCmd "STARTACQUISITION") ;;
  call (Print (Str "Merlin ready for trigger.")) ;;
  Ret VNone.

Definition set_nav (aq : acquisition) : prog io_event :=
  match unpack2 (nav (shape aq)) with
  | Raise e => Throw e
  | Ok (height, width) =>
      call (Print (Str "Setting resolution...")) ;;
      call (ChanSet "NUMFRAMESTOACQUIRE" (VInt (height * width))) ;;
      call (ChanSet "NUMFRAMESPERTRIGGER" (VInt (height * width))) ;;
      Ret VNone
  end.

(** Cell 12: the closure handed to the pool. *)
Definition do_scan : prog io_event :=
  call (Print (Str "do_scan()")) ;;
  with_c (call (ChanCmd "SOFTTRIGGER")) ;;
  Ret VNone.

(** Cell 12. *)
Definition trigger (aq : acquisition) : prog main_event :=
  call (IO (Print (Str "Triggering!"))) ;;
  call (IO (Sleep 1)) ;;
  match unpack2 (nav (shape aq)) with
  | Raise e => Throw e
  | Ok (height, width) =>
      fut <- call (PoolSubmit do_scan) ;;
      call (SetTriggerResult fut) ;;
      Ret VNone
  end.

(** Modelled from the spec: [ctx.run_udf] belongs to the live-processing
    framework.  Spec 6: the runner calls [trigger(descriptor)] once per
    session before starting frame collection.  [before] and [collect] are
    whatever the runner does around that call; each may end in an
    exception. *)
Definition run_udf (before collect : prog runner_event) (aq : acquisition)
  : prog main_event :=
  embed Runner before ;;
  trigger aq ;;
  embed Runner collect.

(** Cell 23, the [finally] suite. *)
Definition teardown : prog main_event :=
  try_finally
    (v <- call ReadTriggerResult ;;
     match v with
     | VNone => Ret VNone
     | _ =>
         call (IO (Print (Str "Waiting for blocking scan function..."))) ;;
         f <- call ReadTriggerResult ;;
         r <- match f with
              | VFuture fut => call (FutureResult fut)
              | _ => Throw AttributeError
              end ;;
         call (IO (Print (Fmt "result = " r)))
     end)
    (Ret VNone).

(** The default [dwell_time=1e-3] of cell 9: the double nearest to 1/1000. *)
Definition default_dwell_time : float := 0x1.0624dd2f1a9fcp-10%float.

(** Cell 23, the part inside [with c:]. *)
Definition setup_and_arm (aq : acquisition) : prog io_event :=
  with_c
    (merlin_setup default_dwell_time 6 None ;;
     microscope_setup default_dwell_time ;;
     set_nav aq ;;
     arm).

(** Cell 23 from the [try] on; [udf] is the call of [ctx.run_udf]. *)
Definition run_and_await (udf : prog main_event) : prog main_event :=
  try_finally udf teardown ;;
  call (IO (Print (Str "Finished."))) ;;
  Ret VNone.

(** Cell 23. *)
Definition run_cell (udf : prog main_event) (aq : acquisition)
  : prog main_event :=
  call (IO (Print (Str "Connecting Merlin control..."))) ;;
  embed IO (setup_and_arm aq) ;;
  run_and_await udf.

(** Cells 11 and 23 before the first statement runs: a fresh state, a pool
    of one worker, a control object that is not connected yet. *)
Definition notebook (endpoint : list (option exn)) (p : prog main_event)
  : config :=
  {| main := p;
     shared := {| c := MerlinControl endpoint; stdout := [] |};
     acquisition_state := AcquisitionState_init;
     pool := ThreadPoolExecutor 1 |}.

(** ** Schedules and what the main thread can see *)

(** The same configuration with the main thread at [p]. *)
Definition at_main (p : prog main_event) (cfg : config) : config :=
  {| main := p; shared := shared cfg;
     acquisition_state := acquisition_state cfg; pool := pool cfg |}.

(** Number of turns the schedule gives to the main thread. *)
Fixpoint main_turns (sch : list action) : nat :=
  match sch with
  | [] => 0
  | Main :: rest => S (main_turns rest)
  | _ :: rest => main_turns rest
  end.

Definition terminated (p : prog main_event) : Prop :=
  match p with
  | Vis _ _ => False
  | _ => True
  end.

(** What the main thread can tell about a configuration without asking the
    future or the channel: its own program, the global state, and how many
    futures exist (the next handle). *)
Definition view : Type := prog main_event * AcquisitionState * nat.

Definition view_of (cfg : config) : view :=
  (main cfg, acquisition_state cfg, length (futures (pool cfg))).

(** The answer to a call that does not depend on the background, if any. *)
Definition foreseen (st : AcquisitionState) (n : nat) (ev : main_event)
  : option (result value) :=
  match ev with
  | IO (Print _) | IO (Sleep _) => Some (Ok VNone)
  | IO _ => None
  | Runner _ => Some (Ok VNone)
  | ReadTriggerResult => Some (Ok (trigger_result st))
  | SetTriggerResult _ => Some (Ok VNone)
  | PoolSubmit _ => Some (Ok (VFuture n))
  | FutureResult _ => None
  end.

Definition state_after (st : AcquisitionState) (ev : main_event)
  : AcquisitionState :=
  match ev with
  | SetTriggerResult v => set_trigger_result st v
  | _ => st
  end.

Definition futures_after (n : nat) (ev : main_event) : nat :=
  match ev with
  | PoolSubmit _ => S n
  | _ => n
  end.

(** One turn of the main thread, seen from the main thread. *)
Definition turn (v : view) : option (view * (main_event * result value)) :=
  match v with
  | (Vis ev k, st, n) =>
      match foreseen st n ev with
      | Some r => Some ((k r, state_after st ev, futures_after n ev), (ev, r))
      | None => None
      end
  | _ => None
  end.

Fixpoint turns (n : nat) (v : view)
  : option (view * list (main_event * result value)) :=
  match n with
  | 0 => Some (v, [])
  | S m =>
      match turn v with
      | Some (v1, l) =>
          match turns m v1 with
          | Some (v2, tr) => Some (v2, l :: tr)
          | None => None
          end
      | None => None
      end
  end.

(** The calls through which the main thread can learn what the background
    did: awaiting a future. *)
Definition is_await (ev : main_event) : bool :=
  match ev with
  | FutureResult _ => true
  | _ => false
  end.

Definition uses_channel (ev : main_event) : bool :=
  match ev with
  | IO (Print _) | IO (Sleep _) => false
  | IO _ => true
  | _ => false
  end.

(** The part of a trace of the main thread before its first await. *)
Fixpoint before_await (tr : list (main_event * result value))
  : list (main_event * result value) :=
  match tr with
  | [] => []
  | (ev, r) :: rest => if is_await ev then [] else (ev, r) :: before_await rest
  end.

(** The main thread never calls the control channel from here on. *)
Fixpoint off_channel (p : prog main_event) : Prop :=
  match p with
  | Vis ev k => uses_channel ev = false /\ forall r, off_channel (k r)
  | _ => True
  end.

(** What surrounds a call in the main thread's program: the statements
    after it and the [try] blocks around it.  A call inside is the next call
    of the whole. *)
Definition context (K : prog main_event -> prog main_event) : Prop :=
  forall ev h, K (Vis ev h) = Vis ev (fun r => K (h r)).

Definition main_label (l : io_event * result value) : label :=
  LMain (IO l.1) l.2.

Definition work_label (fut : handle) (l : io_event * result value) : label :=
  LWork fut l.1 l.2.

(** ** Properties checked along every run *)

(** A property of the main thread checked along all its runs: [m] is what
    a monitor has gathered from the calls made so far, [P] must hold of it
    and of the program that is left, at every point.  Calls whose answer is
    foreseen continue with that answer, the others with every answer. *)
Fixpoint safe {M : Type} (watch : M -> main_event * result value -> M)
    (P : M -> prog main_event -> Prop)
    (p : prog main_event) (st : AcquisitionState) (n : nat) (m : M) : Prop :=
  P m p /\
  match p with
  | Vis ev k =>
      match foreseen st n ev with
      | Some r =>
          safe watch P (k r) (state_after st ev) (futures_after n ev)
               (watch m (ev, r))
      | None => forall r, safe watch P (k r) st n (watch m (ev, r))
      end
  | _ => True
  end.

(** What it means for [trigger aq] to hand the scan to the pool and come
    back without waiting: under every schedule its four calls go through in
    four turns of the main thread, none of them awaits the future, the
    handle that [submit] returned is what the global state holds afterwards,
    and when the workers were given no turn at all the work item is still
    queued and its future still pending when [trigger] is back. *)
Definition returns_without_waiting (aq : acquisition) : Prop :=
  forall (k : value -> prog main_event) (cfg : config) (sch : list action),
    main cfg = bind (trigger aq) k ->
    main_turns sch = 4 ->
    let fut := length (futures (pool cfg)) in
    let out := exec sch cfg in
    main out.1 = k VNone /\
    main_trace out.2 =
      [(IO (Print (Str "Triggering!")), Ok VNone);
       (IO (Sleep 1), Ok VNone);
       (PoolSubmit do_scan, Ok (VFuture fut));
       (SetTriggerResult (VFuture fut), Ok VNone)] /\
    trigger_result (acquisition_state out.1) = VFuture fut /\
    (sch = replicate 4 Main ->
     futures (pool out.1) !! fut = Some Pending /\
     work_queue (pool out.1) = work_queue (pool cfg) ++ [(fut, do_scan)]).

(** The shape of a pool with one worker.  Futures in the order of
    submission: finished ones, then the one being run if any, then the
    queued ones, in queue order. *)
Definition serial (ex : executor) : Prop :=
  max_workers ex = 1 /\
  length (threads ex) <= 1 /\
  exists done : list (result value),
    futures ex = (Finished <$> done)
                 ++ replicate (length (threads ex)) Running
                 ++ replicate (length (work_queue ex)) Pending /\
    (threads ex).*1 = seq (length done) (length (threads ex)) /\
    (work_queue ex).*1 =
      seq (length done + length (threads ex)) (length (work_queue ex)).

(** The function behind a future has been taken up by a worker. *)
Definition started (ex : executor) (fut : handle) : Prop :=
  futures ex !! fut = Some Running \/
  exists r, futures ex !! fut = Some (Finished r).

(** The handshake between [trigger] and the teardown: what a session has
    done with the pool so far.  Nothing, one submission (with the future it
    got), or something out of order: a second submission, or an await of a
    future that no submission returned. *)
Inductive handshake :=
| Idle
| Submitted (fut : handle)
| Broken.

Definition watch_handshake (m : handshake) (l : main_event * result value)
  : handshake :=
  match l.1, m with
  | PoolSubmit _, Idle =>
      match l.2 with
      | Ok (VFuture fut) => Submitted fut
      | _ => Broken
      end
  | PoolSubmit _, _ => Broken
  | FutureResult fut, Submitted fut' => if Nat.eqb fut fut' then m else Broken
  | FutureResult _, _ => Broken
  | _, _ => m
  end.

(** The calls of the main thread are in order: at most one submission, and
    no await except of the future that submission returned. *)
Definition in_order (tr : list (main_event * result value)) : Prop :=
  foldl watch_handshake Idle tr <> Broken.

Definition is_submit (ev : main_event) : bool :=
  match ev with
  | PoolSubmit _ => true
  | _ => false
  end.

(** The submissions in a trace of the main thread. *)
Definition submits (tr : list (main_event * result value))
  : list (main_event * result value) :=
  List.filter (fun l => is_submit l.1) tr.

(** No await so far. *)
Definition watch_await (m : bool) (l : main_event * result value) : bool :=
  m || is_await l.1.

(** What the await of [fut] answered, if it has happened. *)
Definition watch_result (fut : handle) (m : option (result value))
    (l : main_event * result value) : option (result value) :=
  match l.1 with
  | FutureResult f => if Nat.eqb f fut then Some l.2 else m
  | _ => m
  end.

(** How the run cell ends once [ctx.run_udf] has ended as [u] and the await
    has answered [r]: with the exception of the background function if it
    raised one, else with the exception of [ctx.run_udf] if it raised one,
    else normally. *)
Definition outcome (u : prog main_event) (r : result value)
  : prog main_event :=
  match r, u with
  | Raise e', _ => Throw e'
  | Ok _, Throw e => Throw e
  | Ok _, _ => Ret VNone
  end.

(** ** Sample descriptors and sessions *)

(** The notebook's own scan: [SCAN_SIZE = (128, 128)]. *)
Definition aq_scan : acquisition :=
  {| shape := {| nav := [128; 128]%Z; sig := [256; 256]%Z |} |}.

(** A line scan: one navigation axis. *)
Definition aq_line : acquisition :=
  {| shape := {| nav := [128]%Z; sig := [256; 256]%Z |} |}.

(** A runner that receives two frames. *)
Definition two_frames : prog runner_event :=
  call RecvFrame ;; call RecvFrame.

(** A session that only calls [set_trigger_result] with each of [results]
    in turn and then reads the attribute back. *)
Definition set_then_read (results : list value) : prog main_event :=
  foldr (fun res p => call (SetTriggerResult res) ;; p)
        (call ReadTriggerResult) results.

(** Two calls of [trigger] in a row. *)
Definition trigger_twice : prog main_event :=
  trigger aq_scan ;; trigger aq_scan.

(** The session of the notebook up to the point where [ctx.run_udf] has
    called [trigger] and then raised while collecting frames, the worker
    having run [do_scan] to its end. *)
Definition acquisition_failed : config :=
  (exec (replicate 4 Main ++ Start :: replicate 5 (Work 0))
        (notebook [] (run_and_await
                        (run_udf (Ret VNone) (Throw (RuntimeError "no frames"))
                                 aq_scan)))).1.

(** The same session with an endpoint that rejects the soft trigger, after
    both frames have arrived and the worker has run [do_scan] to its end. *)
Definition scan_failed : config :=
  (exec (replicate 6 Main ++ Start :: replicate 5 (Work 0))
        (notebook [None; Some ProtocolError]
                  (run_and_await (run_udf (Ret VNone) two_frames aq_scan)))).1.

(** ** What the setup puts on the wire *)

(** The commands of [merlin_setup], in the order of its statements. *)
Definition merlin_commands (dwell_time : float) (depth : Z)
    (save_path : option string) : list command :=
  [CmdSet "CONTINUOUSRW" (VInt 1);
   CmdSet "ACQUISITIONTIME" (VFloat (dwell_time * 1000)%float);
   CmdSet "COUNTERDEPTH" (VInt depth);
   CmdSet "TRIGGERSTART" (VInt 5);
   CmdSet "RUNHEADLESS" (VInt 1);
   CmdSet "FILEFORMAT" (VInt 2)]
  ++ match save_path with
     | Some path =>
         [CmdSet "IMAGESPERFILE" (VInt 256);
          CmdSet "FILEENABLE" (VInt 1);
          CmdSet "USETIMESTAMPING" (VInt 0);
          CmdSet "FILEFORMAT" (VInt 2);
          CmdSet "FILEDIRECTORY" (VStr path)]
     | None => [CmdSet "FILEENABLE" (VInt 0)]
     end.

(** The commands of [set_nav] and [arm] for a scan of [height] by [width]. *)
Definition scan_commands (height width : Z) : list command :=
  [CmdSet "NUMFRAMESTOACQUIRE" (VInt (height * width));
   CmdSet "NUMFRAMESPERTRIGGER" (VInt (height * width));
   CmdCmd "STARTACQUISITION"].

(** The commands of the setup-and-arm scope of the run cell: for a
    descriptor without two navigation axes [set_nav] stops the scope after
    [merlin_setup]. *)
Definition setup_commands (aq : acquisition) : list command :=
  merlin_commands default_dwell_time 6 None
  ++ match unpack2 (nav (shape aq)) with
     | Ok (height, width) => scan_commands height width
     | Raise _ => []
     end.

(** Channel code that sends the commands [cmds] in order and stops at the
    first request the endpoint rejects: run on an open channel it leaves the
    channel open, adds a prefix of [cmds] to the wire and nothing else, and
    has sent all of them when it returns normally. *)
Definition sends (p : prog io_event) (cmds : list command) : Prop :=
  forall w : world,
    connected (c w) = true ->
    connected (c (run_io p w).1.2) = true /\
    exists k,
      k <= length cmds /\
      wire (c (run_io p w).1.2) = wire (c w) ++ take k cmds /\
      (forall v, (run_io p w).1.1 = Ok v -> k = length cmds).
(** ** Who uses the channel, and when the cell ends *)


(** The last line the run cell prints. *)
Definition is_finished_line (ev : main_event) : bool :=
  match ev with
  | IO (Print (Str s)) => String.eqb s "Finished."
  | _ => false
  end.

(** Whether the last line has been printed. *)
Definition watch_finished (b : bool) (l : main_event * result value) : bool :=
  b || is_finished_line l.1.

(** What the await of [fut] answered, and whether the last line has been
    printed. *)
Definition watch_ending (fut : handle) (m : option (result value) * bool)
    (l : main_event * result value) : option (result value) * bool :=
  (watch_result fut m.1 l, watch_finished m.2 l).
(** The detector has accepted [STARTACQUISITION]. *)
Definition is_armed_label (l : main_event * result value) : bool :=
  match l with
  | (IO (ChanCmd name), Ok _) => String.eqb name "STARTACQUISITION"
  | _ => false
  end.

(** Whether the detector has been armed, and whether every submission so
    far came after that. *)
Definition watch_arming (m : bool * bool) (l : main_event * result value)
  : bool * bool :=
  (m.1 || is_armed_label l, m.2 && (negb (is_submit l.1) || m.1)).

(** The notebook's session after both frames have arrived and the worker
    has run [do_scan] to its end against an endpoint that accepts it. *)
Definition scan_done : config :=
  (exec (replicate 6 Main ++ Start :: replicate 5 (Work 0))
        (notebook [] (run_and_await (run_udf (Ret VNone) two_frames aq_scan)))).1.

(** What the awaits of [first] and of [second] answered. *)
Definition watch_two (first second : handle)
    (m : option (result value) * option (result value))
    (l : main_event * result value)
  : option (result value) * option (result value) :=
  (watch_result first m.1 l, watch_result second m.2 l).

(** ** Where the await is *)

(** Where the main thread is in the [try]/[finally] of the run cell, as its
    calls tell: still inside [ctx.run_udf] (or before it); in the [finally]
    suite after the guard has read the state, after the line that announces
    the wait, after the read of the future to await; past the await; past a
    [finally] suite without an await; or astray, when a call came that the
    place does not allow. *)
Inductive phase :=
| InUdf
| Guarded
| Waiting
| Ready (fut : handle)
| Awaited
| Over
| Astray.

Definition is_print (ev : main_event) : bool :=
  match ev with
  | IO (Print _) => true
  | _ => false
  end.

Definition watch_teardown (m : phase) (l : main_event * result value) : phase :=
  match m, l with
  | InUdf, (ReadTriggerResult, _) => Guarded
  | InUdf, (FutureResult _, _) => Astray
  | InUdf, _ => InUdf
  | Guarded, (IO (Print (Str s)), _) =>
      if String.eqb s "Waiting for blocking scan function..." then Waiting
      else Over
  | Waiting, (ReadTriggerResult, Ok (VFuture fut)) => Ready fut
  | Waiting, (ReadTriggerResult, _) => Over
  | Ready fut, (FutureResult f, _) => if Nat.eqb f fut then Awaited else Astray
  | Awaited, (IO (Print _), _) => Awaited
  | Over, (IO (Print _), _) => Over
  | _, _ => Astray
  end.

(** ** Sessions one after the other *)

(** The handshake of a session that starts in [cfg], under every schedule:
    at most one submission, and every await is of a future that an earlier
    submission of the session returned. *)
Definition handshake_in_order (cfg : config) : Prop :=
  forall sch : list action,
    let tr := main_trace (exec sch cfg).2 in
    length (submits tr) <= 1 /\
    forall t1 fut r t2,
      tr = t1 ++ (FutureResult fut, r) :: t2 ->
      exists fn, In (PoolSubmit fn, Ok (VFuture fut)) t1.

(** The kernel after cells 11 and 23 have run once, to the end, against an
    endpoint that accepts every request. *)
Definition first_session : config :=
  (exec (replicate 22 Main ++ Start :: replicate 5 (Work 0) ++ replicate 8 Main)
        (notebook [] (run_cell (run_udf (Ret VNone) two_frames aq_scan)
                               aq_scan))).1.

(** Cell 23 run again in that kernel: [c] is a new control object, the
    global state and the pool are the ones the first run left behind (cell
    11 is not run again).  This time the runner raises before it calls
    [trigger]. *)
Definition second_session : config :=
  {| main := run_cell (run_udf (Throw (RuntimeError "no detector data"))
                               (Ret VNone) aq_scan)
                      aq_scan;
     shared := {| c := MerlinControl [];
                  stdout := stdout (shared first_session) |};
     acquisition_state := acquisition_state first_session;
     pool := pool first_session |}.

(** ** Answers on the channel *)

(** A call that returned normally. *)
Definition accepted (l : io_event * result value) : Prop :=
  exists v, l.2 = Ok v.

(** Code that goes on only while its calls return normally: every call but
    the last got a normal answer, and so did the last when the code returned
    normally. *)
Definition stops_at_failure (p : prog io_event) : Prop :=
  forall w : world,
    Forall accepted (removelast (run_io p w).2) /\
    (forall v, (run_io p w).1.1 = Ok v -> Forall accepted (run_io p w).2).

(** * Properties *)

(** ** AcquisitionState *)

Lemma fold_set_trigger_result (results : list value) (last : value) st :
  trigger_result (fold_left set_trigger_result (results ++ [last]) st) = last.
Proof. rewrite fold_left_app. reflexivity. Qed.

Lemma exec_cons a rest cfg :
  exec (a :: rest) cfg =
  let (cfg1, l1) := step a cfg in
  let (cfg2, l2) := exec rest cfg1 in (cfg2, l1 ++ l2).
Proof. reflexivity. Qed.

Lemma exec_set_then_read (results : list value) : forall cfg,
  main cfg = set_then_read results ->
  exists cfg' tr,
    exec (replicate (S (length results)) Main) cfg = (cfg', tr) /\
    main cfg' = Ret (trigger_result (fold_left set_trigger_result results
                                       (acquisition_state cfg))) /\
    Forall (fun l => exists ev v, l = LMain ev (Ok v)) tr.
Proof.
  induction results as [|res results IH]; intros cfg Hm.
  - cbn. unfold step_main. rewrite Hm. cbn. eexists _, _. split; [reflexivity|].
    split; [reflexivity|]. repeat constructor. eauto.
  - change (replicate (S (length (res :: results))) Main)
      with (Main :: replicate (S (length results)) Main).
    rewrite exec_cons.
    assert (Hs : step Main cfg =
                 ({| main := set_then_read results; shared := shared cfg;
                     acquisition_state :=
                       set_trigger_result (acquisition_state cfg) res;
                     pool := pool cfg |},
                  [LMain (SetTriggerResult res) (Ok VNone)])).
    { unfold step, step_main. rewrite Hm. reflexivity. }
    rewrite Hs.
    edestruct IH as (cfg' & tr & He & Hr & Hf); [|rewrite He].
    { reflexivity. }
    eexists _, _. split; [reflexivity|]. split; [exact Hr|].
    constructor; eauto.
Qed.

(** C3: after any sequence of [set_trigger_result] calls the attribute holds
    the argument of the last call; every call returns normally, a repeated
    call simply overwrites. *)
Theorem set_trigger_result_last_wins :
  forall (earlier : list value) (last : value),
    (forall st : AcquisitionState,
        trigger_result (fold_left set_trigger_result (earlier ++ [last]) st)
        = last) /\
    (forall cfg : config,
        exists cfg' tr,
          exec (replicate (S (length (earlier ++ [last]))) Main)
               (at_main (set_then_read (earlier ++ [last])) cfg) = (cfg', tr) /\
          main cfg' = Ret last /\
          Forall (fun l => exists ev v, l = LMain ev (Ok v)) tr).
Proof.
  intros earlier last. split.
  - intros st. apply fold_set_trigger_result.
  - intros cfg.
    destruct (exec_set_then_read (earlier ++ [last])
                (at_main (set_then_read (earlier ++ [last])) cfg) eq_refl)
      as (cfg' & tr & He & Hr & Hf).
    exists cfg', tr. split; [exact He|]. split; [|exact Hf].
    rewrite Hr. f_equal. apply fold_set_trigger_result.
Qed.

(** C8: a fresh [AcquisitionState] holds [None]; reading the attribute
    before any [set_trigger_result] returns [None] and raises nothing. *)
Theorem fresh_state_reads_none :
  trigger_result AcquisitionState_init = VNone /\
  forall (endpoint : list (option exn)) (k : result value -> prog main_event),
    exec [Main] (notebook endpoint (Vis ReadTriggerResult k))
    = (notebook endpoint (k (Ok VNone)),
       [LMain ReadTriggerResult (Ok VNone)]).
Proof. split; reflexivity. Qed.

(** ** Interleaving: what worker steps cannot change *)

Lemma main_trace_app t1 t2 :
  main_trace (t1 ++ t2) = main_trace t1 ++ main_trace t2.
Proof.
  induction t1 as [|l t1 IH]; [reflexivity|].
  destruct l; cbn; rewrite IH; reflexivity.
Qed.

Lemma step_start_view cfg :
  view_of (step_start cfg).1 = view_of cfg /\
  main_trace (step_start cfg).2 = [].
Proof.
  unfold step_start. destruct (work_queue (pool cfg)) as [|[fut fn] rest].
  - split; reflexivity.
  - destruct (decide _); [|split; reflexivity].
    unfold view_of. cbn. rewrite length_insert. split; reflexivity.
Qed.

Lemma step_work_view i cfg :
  view_of (step_work i cfg).1 = view_of cfg /\
  main_trace (step_work i cfg).2 = [].
Proof.
  unfold step_work. destruct (threads (pool cfg) !! i) as [[fut p]|].
  - destruct p as [v|e|ev k].
    + unfold view_of. cbn. rewrite length_insert. split; reflexivity.
    + unfold view_of. cbn. rewrite length_insert. split; reflexivity.
    + destruct (perform_io ev (shared cfg)). split; reflexivity.
  - split; reflexivity.
Qed.

Lemma worker_step_view a cfg :
  a <> Main ->
  view_of (step a cfg).1 = view_of cfg /\ main_trace (step a cfg).2 = [].
Proof.
  destruct a; intros H; [congruence| |].
  - apply step_start_view.
  - apply step_work_view.
Qed.

(** A turn of the main thread whose answer is foreseen goes through, with
    that answer, whatever the background is doing. *)
Lemma step_main_turn cfg v l :
  turn (view_of cfg) = Some (v, l) ->
  view_of (step_main cfg).1 = v /\
  (step_main cfg).2 = [LMain l.1 l.2].
Proof.
  unfold turn, view_of, step_main.
  destruct (main cfg) as [x|x|ev k]; [discriminate..|].
  destruct ev as [io|[]| | | |]; cbn.
  - destruct io; cbn; intros [= <- <-]; split; reflexivity.
  - intros [= <- <-]; split; reflexivity.
  - intros [= <- <-]; split; reflexivity.
  - intros [= <- <-]; split; reflexivity.
  - intros [= <- <-]. rewrite length_app. cbn.
    rewrite Nat.add_1_r. split; reflexivity.
  - discriminate.
Qed.

(** The first [n] turns of the main thread are fixed by its view, under
    every schedule. *)
Lemma exec_turns n : forall v v' tr sch cfg,
  turns n v = Some (v', tr) ->
  view_of cfg = v ->
  main_turns sch = n ->
  view_of (exec sch cfg).1 = v' /\ main_trace (exec sch cfg).2 = tr.
Proof.
  intros v v' tr sch. revert n v v' tr.
  induction sch as [|a sch IH]; intros n v v' tr cfg Ht Hv Hn.
  - cbn in Hn. subst n. cbn in Ht. injection Ht as <- <-. split; [exact Hv|reflexivity].
  - rewrite exec_cons. destruct a.
    + cbn in Hn. subst n. cbn [turns] in Ht.
      destruct (turn v) as [[v1 l]|] eqn:E1; [|discriminate].
      destruct (turns (main_turns sch) v1) as [[v2 tr2]|] eqn:E2; [|discriminate].
      injection Ht as <- <-.
      rewrite <- Hv in E1. destruct (step_main_turn _ _ _ E1) as [Hv1 Hl].
      cbn [step]. destruct (step_main cfg) as [c1 l1]. cbn in Hv1, Hl. subst l1.
      destruct (IH _ _ _ _ c1 E2 Hv1 eq_refl) as [Hv2 Htr].
      destruct (exec sch c1) as [c2 l2]. cbn in *. destruct l as [ev r].
      split; [exact Hv2|]. cbn. rewrite Htr. reflexivity.
    + destruct (worker_step_view Start cfg ltac:(discriminate)) as [Hv1 Hl].
      destruct (step Start cfg) as [c1 l1]. cbn in Hv1, Hl.
      destruct (IH n v v' tr c1 Ht ltac:(congruence) Hn) as [Hv2 Htr].
      destruct (exec sch c1) as [c2 l2]. cbn in *.
      rewrite main_trace_app, Hl. split; assumption.
    + destruct (worker_step_view (Work i) cfg ltac:(discriminate)) as [Hv1 Hl].
      destruct (step (Work i) cfg) as [c1 l1]. cbn in Hv1, Hl.
      destruct (IH n v v' tr c1 Ht ltac:(congruence) Hn) as [Hv2 Htr].
      destruct (exec sch c1) as [c2 l2]. cbn in *.
      rewrite main_trace_app, Hl. split; assumption.
Qed.

(** ** [trigger] *)

Lemma turns_trigger aq height width k st n :
  nav (shape aq) = [height; width] ->
  turns 4 (bind (trigger aq) k, st, n) =
  Some ((k VNone, set_trigger_result st (VFuture n), S n),
        [(IO (Print (Str "Triggering!")), Ok VNone);
         (IO (Sleep 1), Ok VNone);
         (PoolSubmit do_scan, Ok (VFuture n));
         (SetTriggerResult (VFuture n), Ok VNone)]).
Proof. intros H. unfold trigger. rewrite H. reflexivity. Qed.

Lemma exec_trigger_alone aq height width k cfg :
  nav (shape aq) = [height; width] ->
  main cfg = bind (trigger aq) k ->
  let fut := length (futures (pool cfg)) in
  let out := exec (replicate 4 Main) cfg in
  futures (pool out.1) !! fut = Some Pending /\
  work_queue (pool out.1) = work_queue (pool cfg) ++ [(fut, do_scan)].
Proof.
  intros H Hm. destruct cfg as [m w st ex]. cbn in Hm. subst m.
  unfold trigger. rewrite H. cbn. split; [|reflexivity].
  rewrite lookup_app_r by lia. rewrite Nat.sub_diag. reflexivity.
Qed.

(** C1 (as amended): for every acquisition descriptor whose navigation shape
    unpacks into two values, [trigger] submits [do_scan] to the pool, stores
    the returned future in the global state and returns, under every
    schedule, without awaiting that future. *)
Theorem trigger_returns_without_waiting (aq : acquisition) (height width : Z) :
  nav (shape aq) = [height; width] -> returns_without_waiting aq.
Proof.
  intros H k cfg sch Hm Hn fut out.
  pose proof (turns_trigger aq height width k (acquisition_state cfg) fut H) as Ht.
  destruct (exec_turns 4 _ _ _ sch cfg Ht) as [Hv Htr].
  { unfold view_of. rewrite Hm. reflexivity. }
  { exact Hn. }
  fold out in Hv, Htr. unfold view_of in Hv. injection Hv as Hv1 Hv2 Hv3.
  split; [exact Hv1|]. split; [exact Htr|]. split; [rewrite Hv2; reflexivity|].
  intros ->. exact (exec_trigger_alone aq height width k cfg H Hm).
Qed.

Lemma trigger_returns_without_waiting_witness :
  let out := exec [Main; Start; Main; Main; Start; Main; Work 0]
                  (notebook [] (bind (trigger aq_scan) Ret)) in
  main out.1 = Ret VNone /\
  trigger_result (acquisition_state out.1) = VFuture 0.
Proof.
  destruct (trigger_returns_without_waiting aq_scan 128 128 eq_refl Ret
              (notebook [] (bind (trigger aq_scan) Ret))
              [Main; Start; Main; Main; Start; Main; Work 0]
              eq_refl eq_refl) as (H1 & _ & H3 & _).
  split; [exact H1 | exact H3].
Defined.

(** For a descriptor with one navigation axis [trigger] raises [ValueError]
    at the tuple unpacking, before anything is submitted. *)
Lemma trigger_line_scan_raises :
  ~ returns_without_waiting aq_line /\
  let out := exec (replicate 4 Main) (notebook [] (bind (trigger aq_line) Ret)) in
  main out.1 = Throw ValueError /\
  work_queue (pool out.1) = [] /\
  trigger_result (acquisition_state out.1) = VNone.
Proof.
  split.
  - intros H.
    destruct (H Ret (notebook [] (bind (trigger aq_line) Ret))
                (replicate 4 Main) eq_refl eq_refl) as [H1 _].
    cbn in H1. discriminate H1.
  - cbn. repeat split.
Qed.

(** ** Sequential runs inside the interleaving *)

Lemma context_bind k : context (fun p => bind p k).
Proof. intros ev h. reflexivity. Qed.

Lemma context_try_finally fin : context (fun p => try_finally p fin).
Proof. intros ev h. reflexivity. Qed.

Lemma context_compose K1 K2 :
  context K1 -> context K2 -> context (fun p => K1 (K2 p)).
Proof. intros H1 H2 ev h. rewrite H2, H1. reflexivity. Qed.

(** The main thread running a stretch of channel code on its own. *)
Lemma exec_main_io K (p : prog io_event) :
  context K ->
  forall cfg out w' tr,
    main cfg = K (embed IO p) ->
    run_io p (shared cfg) = (out, w', tr) ->
    exec (replicate (length tr) Main) cfg =
    ({| main := K (reply out); shared := w';
        acquisition_state := acquisition_state cfg; pool := pool cfg |},
     map main_label tr).
Proof.
  intros HK. induction p as [v|e|ev k IH]; intros cfg out w' tr Hm Hr.
  - cbn in Hr. injection Hr as <- <- <-. destruct cfg; cbn in *. subst. reflexivity.
  - cbn in Hr. injection Hr as <- <- <-. destruct cfg; cbn in *. subst. reflexivity.
  - cbn [run_io] in Hr.
    destruct (perform_io ev (shared cfg)) as [r w1] eqn:E1.
    destruct (run_io (k r) w1) as [[out2 w2] tr2] eqn:E2.
    injection Hr as <- <- <-.
    cbn [length replicate]. rewrite exec_cons.
    assert (Hs : step Main cfg =
                 ({| main := K (embed IO (k r)); shared := w1;
                     acquisition_state := acquisition_state cfg;
                     pool := pool cfg |}, [LMain (IO ev) r])).
    { unfold step, step_main. rewrite Hm. cbn [embed]. rewrite HK, E1.
      reflexivity. }
    rewrite Hs. erewrite IH; [|reflexivity|exact E2]. reflexivity.
Qed.

(** The only busy worker running its function on its own. *)
Lemma exec_work_alone (p : prog io_event) :
  forall cfg fut out w' tr,
    threads (pool cfg) = [(fut, p)] ->
    run_io p (shared cfg) = (out, w', tr) ->
    exec (replicate (S (length tr)) (Work 0)) cfg =
    ({| main := main cfg; shared := w';
        acquisition_state := acquisition_state cfg;
        pool := {| max_workers := max_workers (pool cfg);
                   work_queue := work_queue (pool cfg);
                   threads := [];
                   futures := <[fut := Finished out]> (futures (pool cfg)) |} |},
     map (work_label fut) tr ++ [LFinish fut out]).
Proof.
  induction p as [v|e|ev k IH]; intros cfg fut out w' tr Ht Hr.
  - cbn in Hr. injection Hr as <- <- <-. cbn [length replicate exec step].
    unfold step_work, finish. rewrite !Ht. reflexivity.
  - cbn in Hr. injection Hr as <- <- <-. cbn [length replicate exec step].
    unfold step_work, finish. rewrite !Ht. reflexivity.
  - cbn [run_io] in Hr.
    destruct (perform_io ev (shared cfg)) as [r w1] eqn:E1.
    destruct (run_io (k r) w1) as [[out2 w2] tr2] eqn:E2.
    injection Hr as <- <- <-.
    change (replicate (S (length ((ev, r) :: tr2))) (Work 0))
      with (Work 0 :: replicate (S (length tr2)) (Work 0)).
    rewrite exec_cons.
    assert (Hs : step (Work 0) cfg =
                 ({| main := main cfg; shared := w1;
                     acquisition_state := acquisition_state cfg;
                     pool := {| max_workers := max_workers (pool cfg);
                                work_queue := work_queue (pool cfg);
                                threads := [(fut, k r)];
                                futures := futures (pool cfg) |} |},
                  [LWork fut ev r])).
    { unfold step, step_work. rewrite !Ht. cbn. rewrite E1. reflexivity. }
    rewrite Hs. erewrite IH; [|reflexivity|exact E2]. reflexivity.
Qed.

(** ** The control channel scope *)

Lemma run_io_bind (p : prog io_event) k : forall w,
  run_io (bind p k) w =
  let '(out, w1, tr1) := run_io p w in
  match out with
  | Ok v => let '(out2, w2, tr2) := run_io (k v) w1 in (out2, w2, tr1 ++ tr2)
  | Raise e => (Raise e, w1, tr1)
  end.
Proof.
  induction p as [v|e|ev h IH]; intros w.
  - cbn. destruct (run_io (k v) w) as [[o w2] tr2]. reflexivity.
  - reflexivity.
  - cbn. destruct (perform_io ev w) as [r w1]. rewrite IH.
    destruct (run_io (h r) w1) as [[o w2] tr2]. destruct o as [v|e].
    + destruct (run_io (k v) w2) as [[o3 w3] tr3]. reflexivity.
    + reflexivity.
Qed.

Lemma try_finally_exit_closes (body : prog io_event) : forall w,
  connected (c (run_io (try_finally body (call ChanExit)) w).1.2) = false.
Proof.
  induction body as [v|e|ev h IH]; intros w; try reflexivity.
  cbn. destruct (perform_io ev w) as [r w1]. specialize (IH r w1).
  destruct (run_io (try_finally (h r) (call ChanExit)) w1) as [[o w2] tr2].
  exact IH.
Qed.

Lemma with_c_closes (body : prog io_event) w :
  connected (c w) = false ->
  connected (c (run_io (with_c body) w).1.2) = false.
Proof.
  intros Hc. unfold with_c. cbn. unfold chan_enter.
  destruct (next_outcome (script (c w))) as [[e|] rest]; cbn.
  - exact Hc.
  - match goal with |- context [run_io ?p ?w1] =>
      pose proof (try_finally_exit_closes body w1) as H;
      destruct (run_io p w1) as [[o w2] tr2] end.
    exact H.
Qed.

Lemma do_scan_closes w :
  connected (c w) = false -> connected (c (run_io do_scan w).1.2) = false.
Proof.
  intros Hc. unfold do_scan. cbn [bind call reply run_io perform_io].
  match goal with |- context [run_io (bind ?p ?k) ?w1] =>
    rewrite (run_io_bind p k w1);
    pose proof (with_c_closes (call (ChanCmd "SOFTTRIGGER")) w1 Hc) as H;
    change p with (with_c (call (ChanCmd "SOFTTRIGGER")));
    destruct (run_io (with_c (call (ChanCmd "SOFTTRIGGER"))) w1)
      as [[o w2] tr2] end.
  destruct o; exact H.
Qed.

(** C5: the control channel is closed on every exit of a [with c:] scope,
    normal or by an exception of any call inside: for any body run to its
    end, for the setup-and-arm scope of the run cell, and for [do_scan] run
    by the worker. *)
Theorem control_channel_closed_on_every_exit :
  (forall (body : prog io_event) (w : world),
      connected (c w) = false ->
      connected (c (run_io (with_c body) w).1.2) = false) /\
  (forall (endpoint : list (option exn)) (udf : prog main_event)
          (aq : acquisition),
      exists n,
        let out := exec (replicate n Main) (notebook endpoint (run_cell udf aq)) in
        connected (c (shared out.1)) = false /\
        (main out.1 = run_and_await udf \/ exists e, main out.1 = Throw e)) /\
  (forall (cfg : config) (fut : handle),
      threads (pool cfg) = [(fut, do_scan)] ->
      connected (c (shared cfg)) = false ->
      exists n r,
        let out := exec (replicate n (Work 0)) cfg in
        threads (pool out.1) = [] /\
        connected (c (shared out.1)) = false /\
        last out.2 = Some (LFinish fut r)).
Proof.
  split; [exact with_c_closes|]. split.
  - intros endpoint udf aq.
    set (w1 := {| c := MerlinControl endpoint;
                  stdout := [Str "Connecting Merlin control..."] |}).
    destruct (run_io (setup_and_arm aq) w1) as [[o w2] tr] eqn:E.
    exists (S (length tr)). cbn [replicate]. rewrite exec_cons.
    change (step Main (notebook endpoint (run_cell udf aq)))
      with ({| main := bind (embed IO (setup_and_arm aq))
                            (fun _ => run_and_await udf);
               shared := w1;
               acquisition_state := AcquisitionState_init;
               pool := ThreadPoolExecutor 1 |},
            [LMain (IO (Print (Str "Connecting Merlin control..."))) (Ok VNone)]).
    cbv beta iota.
    erewrite (exec_main_io (fun p => bind p (fun _ => run_and_await udf)));
      [|apply context_bind|reflexivity|exact E].
    cbn. pose proof (with_c_closes _ w1 eq_refl : connected
      (c (run_io (setup_and_arm aq) w1).1.2) = false) as H.
    rewrite E in H. split; [exact H|]. destruct o; cbn; eauto.
  - intros cfg fut Ht Hc.
    destruct (run_io do_scan (shared cfg)) as [[o w2] tr] eqn:E.
    exists (S (length tr)), o.
    rewrite (exec_work_alone do_scan cfg fut o w2 tr Ht E). cbn.
    pose proof (do_scan_closes _ Hc) as H. rewrite E in H.
    split; [reflexivity|]. split; [exact H|]. apply last_snoc.
Qed.

(** ** What [trigger] submits *)

Lemma turns_trigger_submit aq height width k st n :
  nav (shape aq) = [height; width] ->
  exists v,
    turns 3 (bind (trigger aq) k, st, n) =
    Some (v, [(IO (Print (Str "Triggering!")), Ok VNone);
              (IO (Sleep 1), Ok VNone);
              (PoolSubmit do_scan, Ok (VFuture n))]).
Proof. intros H. unfold trigger. rewrite H. eexists. reflexivity. Qed.

Lemma run_io_do_scan_accepted w s1 s2 :
  next_outcome (script (c w)) = (None, s1) ->
  next_outcome s1 = (None, s2) ->
  run_io do_scan w =
  (Ok VNone,
   {| c := {| connected := false;
              wire := wire (c w) ++ [CmdCmd "SOFTTRIGGER"];
              script := s2 |};
      stdout := stdout w ++ [Str "do_scan()"] |},
   [(Print (Str "do_scan()"), Ok VNone);
    (ChanEnter, Ok VNone);
    (ChanCmd "SOFTTRIGGER", Ok VNone);
    (ChanExit, Ok VNone)]).
Proof.
  intros H1 H2. unfold do_scan, with_c. cbn. unfold chan_enter. cbn. rewrite H1.
  cbn. unfold chan_send. cbn. rewrite H2. reflexivity.
Qed.

(** C7: what [trigger] hands to the pool is [do_scan], and [submit] answers
    with the future in that very turn of the main thread, under every
    schedule; [do_scan], run against an endpoint that accepts its requests,
    opens the channel, sends the one command [SOFTTRIGGER] and leaves the
    scope. *)
Theorem trigger_submits_the_soft_trigger_scan
    (aq : acquisition) (height width : Z) :
  nav (shape aq) = [height; width] ->
  (forall (k : value -> prog main_event) (cfg : config) (sch : list action),
      main cfg = bind (trigger aq) k ->
      main_turns sch = 3 ->
      main_trace (exec sch cfg).2 =
      [(IO (Print (Str "Triggering!")), Ok VNone);
       (IO (Sleep 1), Ok VNone);
       (PoolSubmit do_scan, Ok (VFuture (length (futures (pool cfg)))))]) /\
  (forall (w : world) (s1 s2 : list (option exn)),
      next_outcome (script (c w)) = (None, s1) ->
      next_outcome s1 = (None, s2) ->
      run_io do_scan w =
      (Ok VNone,
       {| c := {| connected := false;
                  wire := wire (c w) ++ [CmdCmd "SOFTTRIGGER"];
                  script := s2 |};
          stdout := stdout w ++ [Str "do_scan()"] |},
       [(Print (Str "do_scan()"), Ok VNone);
        (ChanEnter, Ok VNone);
        (ChanCmd "SOFTTRIGGER", Ok VNone);
        (ChanExit, Ok VNone)])).
Proof.
  intros H. split.
  - intros k cfg sch Hm Hn.
    destruct (turns_trigger_submit aq height width k (acquisition_state cfg)
                (length (futures (pool cfg))) H) as [v Ht].
    destruct (exec_turns 3 _ _ _ sch cfg Ht) as [_ Htr]; [|exact Hn|exact Htr].
    unfold view_of. rewrite Hm. reflexivity.
  - exact run_io_do_scan_accepted.
Qed.

Lemma trigger_submits_the_soft_trigger_scan_witness :
  main_trace (exec [Start; Main; Main; Work 0; Main]
                   (notebook [] (bind (trigger aq_scan) Ret))).2 =
  [(IO (Print (Str "Triggering!")), Ok VNone);
   (IO (Sleep 1), Ok VNone);
   (PoolSubmit do_scan, Ok (VFuture 0))] /\
  (run_io do_scan {| c := MerlinControl []; stdout := [] |}).1.1 = Ok VNone.
Proof.
  destruct (trigger_submits_the_soft_trigger_scan aq_scan 128 128 eq_refl)
    as [H1 H2].
  split.
  - exact (H1 Ret (notebook [] (bind (trigger aq_scan) Ret))
              [Start; Main; Main; Work 0; Main] eq_refl eq_refl).
  - rewrite (H2 {| c := MerlinControl []; stdout := [] |} [] [] eq_refl eq_refl).
    reflexivity.
Defined.

(** ** [trigger] and the descriptor *)

Lemma trigger_two_axes aq1 aq2 h1 w1 h2 w2 :
  nav (shape aq1) = [h1; w1] ->
  nav (shape aq2) = [h2; w2] ->
  trigger aq1 = trigger aq2.
Proof. intros H1 H2. unfold trigger. rewrite H1, H2. reflexivity. Qed.

(** C10: for two descriptors whose navigation shape unpacks into two values
    [trigger] is the same program: under every schedule and from every
    configuration both runs coincide, and the calls of the main thread are
    the settle delay followed by the submission of the same [do_scan]. *)
Theorem trigger_same_for_every_scan
    (aq1 aq2 : acquisition) (h1 w1 h2 w2 : Z) :
  nav (shape aq1) = [h1; w1] ->
  nav (shape aq2) = [h2; w2] ->
  forall (k : value -> prog main_event) (cfg : config) (sch : list action),
    exec sch (at_main (bind (trigger aq1) k) cfg) =
    exec sch (at_main (bind (trigger aq2) k) cfg) /\
    (main_turns sch = 4 ->
     main_trace (exec sch (at_main (bind (trigger aq1) k) cfg)).2 =
     [(IO (Print (Str "Triggering!")), Ok VNone);
      (IO (Sleep 1), Ok VNone);
      (PoolSubmit do_scan, Ok (VFuture (length (futures (pool cfg)))));
      (SetTriggerResult (VFuture (length (futures (pool cfg)))), Ok VNone)]).
Proof.
  intros H1 H2 k cfg sch. split.
  - rewrite (trigger_two_axes aq1 aq2 h1 w1 h2 w2 H1 H2). reflexivity.
  - intros Hn.
    pose proof (turns_trigger aq1 h1 w1 k (acquisition_state cfg)
                  (length (futures (pool cfg))) H1) as Ht.
    destruct (exec_turns 4 _ _ _ sch (at_main (bind (trigger aq1) k) cfg) Ht)
      as [_ Htr]; [reflexivity|exact Hn|exact Htr].
Qed.

Lemma trigger_same_for_every_scan_witness :
  exec [Main; Main; Main; Start; Main; Work 0]
       (notebook [] (bind (trigger aq_scan) Ret)) =
  exec [Main; Main; Main; Start; Main; Work 0]
       (notebook []
          (bind (trigger {| shape := {| nav := [2; 3]%Z; sig := [] |} |}) Ret)).
Proof.
  exact (proj1 (trigger_same_for_every_scan
                  aq_scan {| shape := {| nav := [2; 3]%Z; sig := [] |} |}
                  128 128 2 3 eq_refl eq_refl Ret (notebook [] (Ret VNone))
                  [Main; Main; Main; Start; Main; Work 0])).
Defined.

(** ** One worker: background actions run one at a time *)

Lemma serial_new : serial (ThreadPoolExecutor 1).
Proof. split; [reflexivity|]. split; [cbn; lia|]. exists []. repeat split. Qed.

Lemma serial_submit fn ex : serial ex -> serial (submit fn ex).2.
Proof.
  intros (Hm & Hl & done & Hf & Ht & Hq).
  assert (Hlen : length (futures ex) =
                 length done + length (threads ex) + length (work_queue ex)).
  { rewrite Hf, !length_app, length_fmap, !length_replicate. lia. }
  split; [exact Hm|]. split; [exact Hl|]. exists done. cbn.
  rewrite length_app. cbn. rewrite Nat.add_1_r. split; [|split].
  - rewrite Hf at 1. rewrite replicate_S_end. rewrite !app_assoc. reflexivity.
  - exact Ht.
  - rewrite fmap_app, Hq, seq_S, Hlen. reflexivity.
Qed.

Lemma serial_start cfg : serial (pool cfg) -> serial (pool (step_start cfg).1).
Proof.
  intros (Hm & Hl & done & Hf & Ht & Hq). unfold step_start.
  destruct (work_queue (pool cfg)) as [|[fut fn] rest] eqn:Eq.
  { cbn. split; [exact Hm|]. split; [exact Hl|]. exists done. rewrite Eq. auto. }
  destruct (decide _) as [Hlt|Hge]; cbn.
  2:{ split; [exact Hm|]. split; [exact Hl|]. exists done. rewrite Eq. auto. }
  rewrite Hm in Hlt.
  destruct (threads (pool cfg)) as [|t ts] eqn:Et. 2:{ cbn in Hlt. lia. }
  cbn in Hq, Hf |- *. injection Hq as Hfut Hrest. rewrite Nat.add_0_r in Hfut. subst fut.
  split; [exact Hm|]. split; [cbn; lia|]. exists done. cbn. split; [|split].
  - rewrite Hf. rewrite insert_app_r_alt by (rewrite length_fmap; lia).
    rewrite length_fmap, Nat.sub_diag. reflexivity.
  - reflexivity.
  - rewrite Hrest. f_equal. lia.
Qed.

Lemma serial_work i cfg : serial (pool cfg) -> serial (pool (step_work i cfg).1).
Proof.
  intros (Hm & Hl & done & Hf & Ht & Hq). unfold step_work.
  destruct (threads (pool cfg) !! i) as [[fut p]|] eqn:Ei.
  2:{ cbn. split; [exact Hm|]. split; [exact Hl|]. exists done. auto. }
  destruct (threads (pool cfg)) as [|t ts] eqn:Et; [discriminate|].
  destruct ts; [|cbn in Hl; lia].
  destruct i; [|discriminate]. cbn in Ei. injection Ei as ->.
  cbn in Ht, Hf, Hq. injection Ht as Hfut. subst fut.
  assert (Hfin : forall r, serial
            {| max_workers := max_workers (pool cfg);
               work_queue := work_queue (pool cfg);
               threads := [];
               futures := <[length done := Finished r]> (futures (pool cfg)) |}).
  { intros r. split; [exact Hm|]. split; [cbn; lia|]. exists (done ++ [r]). cbn.
    split; [|split].
    - rewrite Hf. rewrite insert_app_r_alt by (rewrite length_fmap; lia).
      rewrite length_fmap, Nat.sub_diag. cbn. rewrite fmap_app, <- app_assoc. reflexivity.
    - reflexivity.
    - rewrite Hq, length_app. cbn. f_equal. lia. }
  destruct p as [v|e|ev k].
  - unfold finish. rewrite Et. cbn. apply Hfin.
  - unfold finish. rewrite Et. cbn. apply Hfin.
  - destruct (perform_io ev (shared cfg)) as [r w']. cbn.
    split; [exact Hm|]. split; [cbn; lia|]. exists done. cbn. auto.
Qed.

Lemma serial_main cfg : serial (pool cfg) -> serial (pool (step_main cfg).1).
Proof.
  intros H. unfold step_main. destruct (main cfg) as [v|e|ev k]; [exact H..|].
  destruct ev as [io|[]| | |fn|fut]; cbn; try exact H.
  - destruct (perform_io io (shared cfg)). exact H.
  - apply (serial_submit fn _ H).
  - destruct (futures (pool cfg) !! fut) as [[| |r]|]; exact H.
Qed.

Lemma serial_exec sch : forall cfg, serial (pool cfg) -> serial (pool (exec sch cfg).1).
Proof.
  induction sch as [|a sch IH]; intros cfg H; [exact H|].
  rewrite exec_cons.
  assert (H1 : serial (pool (step a cfg).1)).
  { destruct a; [apply serial_main|apply serial_start|apply serial_work]; exact H. }
  destruct (step a cfg) as [c1 l1]. specialize (IH c1 H1).
  destruct (exec sch c1) as [c2 l2]. exact IH.
Qed.

Lemma serial_order ex f1 f2 :
  serial ex -> f1 < f2 -> started ex f2 -> exists r, futures ex !! f1 = Some (Finished r).
Proof.
  intros (Hm & Hl & done & Hf & Ht & Hq) Hlt Hs.
  assert (Hd : f1 < length done).
  { destruct (decide (f2 < length done + length (threads ex))) as [?|Hge]; [lia|].
    exfalso. unfold started in Hs. rewrite Hf in Hs.
    rewrite app_assoc in Hs. rewrite lookup_app_r in Hs
      by (rewrite length_app, length_fmap, length_replicate; lia).
    destruct Hs as [Hs|[r Hs]]; apply lookup_replicate in Hs; destruct Hs; discriminate. }
  rewrite Hf, lookup_app_l by (rewrite length_fmap; lia).
  rewrite list_lookup_fmap. destruct (lookup_lt_is_Some_2 done f1 Hd) as [r Hr].
  exists r. rewrite Hr. reflexivity.
Qed.

(** C4: with the notebook's pool of one worker, under every schedule and for
    every program of the main thread, at most one submitted function is
    being run at any time, and a function submitted later is taken up only
    once every function submitted before it has finished. *)
Theorem one_background_action_at_a_time
    (p : prog main_event) (w : world) (st : AcquisitionState)
    (sch : list action) :
  let ex := pool (exec sch {| main := p; shared := w; acquisition_state := st;
                              pool := ThreadPoolExecutor 1 |}).1 in
  length (threads ex) <= 1 /\
  (forall f1 f2,
      futures ex !! f1 = Some Running -> futures ex !! f2 = Some Running ->
      f1 = f2) /\
  (forall f1 f2,
      f1 < f2 -> started ex f2 -> exists r, futures ex !! f1 = Some (Finished r)).
Proof.
  intros ex.
  assert (H : serial ex) by (apply serial_exec, serial_new).
  split; [apply H|]. split.
  - intros f1 f2 H1 H2.
    destruct (Nat.lt_trichotomy f1 f2) as [Hlt|[Heq|Hgt]]; [|exact Heq|].
    + destruct (serial_order ex f1 f2 H Hlt (or_introl H2)) as [r Hr]. congruence.
    + destruct (serial_order ex f2 f1 H Hgt (or_introl H1)) as [r Hr]. congruence.
  - intros f1 f2 Hlt Hs. exact (serial_order ex f1 f2 H Hlt Hs).
Qed.

(** Two triggers back to back: the second [do_scan] stays queued while the
    first is being run, however often a worker is asked to start. *)
Lemma one_background_action_at_a_time_witness :
  let ex := pool (exec (replicate 8 Main ++ [Start; Start; Work 0; Start])
                       (notebook [] trigger_twice)).1 in
  futures ex = [Running; Pending] /\
  (started ex 1 -> exists r, futures ex !! 0 = Some (Finished r)).
Proof.
  split; [reflexivity|].
  exact (proj2 (proj2 (one_background_action_at_a_time
                         trigger_twice
                         {| c := MerlinControl []; stdout := [] |}
                         AcquisitionState_init
                         (replicate 8 Main ++ [Start; Start; Work 0; Start])))
               0 1 (Nat.lt_0_succ 0)).
Defined.

(** ** Properties of the main thread under every schedule *)

Lemma safe_now {M} (watch : M -> _ -> M) P p st n m :
  safe watch P p st n m -> P m p.
Proof. destruct p; intros [H _]; exact H. Qed.

Lemma step_main_unforeseen cfg ev k :
  main cfg = Vis ev k ->
  foreseen (acquisition_state cfg) (length (futures (pool cfg))) ev = None ->
  step_main cfg = (cfg, []) \/
  exists r, (step_main cfg).2 = [LMain ev r] /\
            view_of (step_main cfg).1 =
            (k r, acquisition_state cfg, length (futures (pool cfg))).
Proof.
  intros Hm Hf. unfold step_main. rewrite Hm.
  destruct ev as [io|[]| | |fn|fut]; try discriminate.
  - destruct (perform_io io (shared cfg)) as [r w'] eqn:E. right. exists r.
    split; reflexivity.
  - destruct (futures (pool cfg) !! fut) as [[| |r]|]; auto.
    right. exists r. split; reflexivity.
Qed.

Lemma step_main_terminated cfg :
  terminated (main cfg) -> step_main cfg = (cfg, []).
Proof. unfold step_main. destruct (main cfg); [reflexivity..|intros []]. Qed.

Lemma exec_cons_1 a rest cfg :
  (exec (a :: rest) cfg).1 = (exec rest (step a cfg).1).1.
Proof.
  rewrite exec_cons. destruct (step a cfg) as [c1 l1]. cbn [fst snd].
  destruct (exec rest c1) as [c2 l2]. reflexivity.
Qed.

Lemma exec_cons_2 a rest cfg :
  (exec (a :: rest) cfg).2 = (step a cfg).2 ++ (exec rest (step a cfg).1).2.
Proof.
  rewrite exec_cons. destruct (step a cfg) as [c1 l1]. cbn [fst snd].
  destruct (exec rest c1) as [c2 l2]. reflexivity.
Qed.

Lemma safe_exec {M} (watch : M -> _ -> M) P sch : forall cfg m,
  safe watch P (main cfg) (acquisition_state cfg)
       (length (futures (pool cfg))) m ->
  P (foldl watch m (main_trace (exec sch cfg).2)) (main (exec sch cfg).1).
Proof.
  induction sch as [|a sch IH]; intros cfg m Hs.
  - cbn. eapply safe_now, Hs.
  - rewrite exec_cons_1, exec_cons_2, main_trace_app, foldl_app.
    assert (Hw : a <> Main ->
       P (foldl watch (foldl watch m (main_trace (step a cfg).2))
                (main_trace (exec sch (step a cfg).1).2))
         (main (exec sch (step a cfg).1).1)).
    { intros Ha. destruct (worker_step_view a cfg Ha) as [Hv Hl].
      rewrite Hl. cbn [foldl]. apply IH.
      unfold view_of in Hv. injection Hv as -> -> ->. exact Hs. }
    destruct a; [|apply Hw; discriminate..]. clear Hw. cbn [step].
    destruct (main cfg) as [v|e|ev k] eqn:Em.
    + rewrite step_main_terminated by (rewrite Em; exact I).
      cbn. apply IH. rewrite Em. exact Hs.
    + rewrite step_main_terminated by (rewrite Em; exact I).
      cbn. apply IH. rewrite Em. exact Hs.
    + cbn [safe] in Hs. destruct Hs as [HP Hs].
      destruct (foreseen (acquisition_state cfg) (length (futures (pool cfg))) ev)
        as [r|] eqn:Ef.
      * destruct (step_main_turn cfg (k r, state_after (acquisition_state cfg) ev,
                    futures_after (length (futures (pool cfg))) ev) (ev, r))
          as [Hv Hl].
        { unfold turn, view_of. rewrite Em, Ef. reflexivity. }
        rewrite Hl. cbn [main_trace foldl fst snd]. apply IH.
        unfold view_of in Hv. injection Hv as -> -> ->. exact Hs.
      * destruct (step_main_unforeseen cfg ev k Em Ef) as [Hb|[r [Hl Hv]]].
        -- rewrite Hb. cbn. apply IH. rewrite Em. cbn [safe]. rewrite Ef.
           split; assumption.
        -- rewrite Hl. cbn [main_trace foldl fst snd]. apply IH.
           unfold view_of in Hv. injection Hv as -> -> ->. apply Hs.
Qed.

Lemma safe_embed {E M} (f : E -> main_event) (watch : M -> _ -> M) P K
    (q : prog E) :
  context K ->
  (forall st n ev, state_after st (f ev) = st /\ futures_after n (f ev) = n) ->
  (forall m ev r, watch m (f ev, r) = m) ->
  forall st n m,
    (forall ev k, P m (Vis ev k)) ->
    (forall out, safe watch P (K (reply out)) st n m) ->
    safe watch P (K (embed f q)) st n m.
Proof.
  intros HK Hf Hw st n m HP Hout. induction q as [v|e|ev k IH].
  - apply (Hout (Ok v)).
  - apply (Hout (Raise e)).
  - cbn [embed]. rewrite HK. cbn [safe]. split; [apply HP|].
    destruct (foreseen st n (f ev)) as [r|].
    + destruct (Hf st n ev) as [-> ->]. rewrite Hw. apply IH.
    + intros r. rewrite Hw. apply IH.
Qed.

(** The same for a monitor that the embedded calls leave alone where it
    stands. *)
Lemma safe_embed_at {E M} (f : E -> main_event) (watch : M -> _ -> M) P K
    (q : prog E) :
  context K ->
  (forall st n ev, state_after st (f ev) = st /\ futures_after n (f ev) = n) ->
  forall st n m,
    (forall ev r, watch m (f ev, r) = m) ->
    (forall ev k, P m (Vis ev k)) ->
    (forall out, safe watch P (K (reply out)) st n m) ->
    safe watch P (K (embed f q)) st n m.
Proof.
  intros HK Hf st n m Hw HP Hout. induction q as [v|e|ev k IH].
  - apply (Hout (Ok v)).
  - apply (Hout (Raise e)).
  - cbn [embed]. rewrite HK. cbn [safe]. split; [apply HP|].
    destruct (foreseen st n (f ev)) as [r|].
    + destruct (Hf st n ev) as [-> ->]. rewrite Hw. apply IH.
    + intros r. rewrite Hw. apply IH.
Qed.

(** ** The handshake in a session of the notebook *)

Local Arguments run_and_await : simpl never.
Local Arguments teardown : simpl never.
Local Arguments setup_and_arm : simpl never.

Lemma context_run_and_await : context run_and_await.
Proof. intros ev h. reflexivity. Qed.

Lemma runner_quiet st n (ev : runner_event) :
  state_after st (Runner ev) = st /\ futures_after n (Runner ev) = n.
Proof. split; reflexivity. Qed.

Lemma io_quiet st n (ev : io_event) :
  state_after st (IO ev) = st /\ futures_after n (IO ev) = n.
Proof. split; reflexivity. Qed.

Lemma handshake_after_udf n fut out :
  safe watch_handshake (fun m _ => m <> Broken)
       (run_and_await (reply out))
       {| trigger_result := VFuture fut |} n (Submitted fut).
Proof.
  unfold run_and_await, teardown. destruct out as [v|e]; cbn; rewrite Nat.eqb_refl;
    repeat split; try discriminate; intros [?|?]; cbn; repeat split; discriminate.
Qed.

Lemma handshake_before_trigger n out :
  safe watch_handshake (fun m _ => m <> Broken)
       (run_and_await (reply out)) AcquisitionState_init n Idle.
Proof.
  unfold run_and_await, teardown. destruct out as [v|e]; cbn; repeat split; discriminate.
Qed.

Lemma handshake_run_udf before collect aq n :
  safe watch_handshake (fun m _ => m <> Broken)
       (run_and_await (run_udf before collect aq)) AcquisitionState_init n Idle.
Proof.
  unfold run_udf.
  refine (safe_embed Runner _ _
            (fun p => run_and_await (bind p (fun _ => bind (trigger aq)
                                       (fun _ => embed Runner collect))))
            before _ runner_quiet _ _ _ _ _ _).
  - intros ev h. reflexivity.
  - intros m [] r. destruct m; reflexivity.
  - discriminate.
  - intros [v|e]; [|apply (handshake_before_trigger n (Raise e))].
    cbn [reply bind]. unfold trigger.
    destruct (unpack2 (nav (shape aq))) as [[h w]|e].
    + cbn. repeat (split; [discriminate|]).
      refine (safe_embed Runner _ _ run_and_await collect
                context_run_and_await runner_quiet _ _ _ _ _ _).
      * intros m [] r. destruct m; reflexivity.
      * discriminate.
      * apply handshake_after_udf.
    + cbn. repeat (split; [discriminate|]).
      apply (handshake_before_trigger n (Raise e)).
Qed.

Lemma handshake_run_cell before collect aq n :
  safe watch_handshake (fun m _ => m <> Broken)
       (run_cell (run_udf before collect aq) aq) AcquisitionState_init n Idle.
Proof.
  unfold run_cell. cbn. split; [discriminate|].
  refine (safe_embed IO _ _
            (fun p => bind p (fun _ => run_and_await (run_udf before collect aq)))
            (setup_and_arm aq) _ io_quiet _ _ _ _ _ _).
  - intros ev h. reflexivity.
  - intros m ev r. destruct m; reflexivity.
  - discriminate.
  - intros [v|e]; cbn; [apply handshake_run_udf|]. split; [discriminate|exact I].
Qed.

Lemma no_await_without_handle u n :
  terminated u ->
  safe watch_await (fun m _ => m = false)
       (run_and_await u) {| trigger_result := VNone |} n false.
Proof.
  unfold run_and_await, teardown. destruct u as [v|e|ev k]; intros []; cbn;
    repeat split.
Qed.

Lemma watch_await_false tr :
  foldl watch_await false tr = false ->
  Forall (fun l => is_await l.1 = false) tr.
Proof.
  induction tr as [|l tr IH] using rev_ind; intros H; [constructor|].
  rewrite foldl_app in H. cbn in H. unfold watch_await in H at 1.
  apply orb_false_iff in H as [H1 H2].
  apply Forall_app. split; [apply IH, H1|]. constructor; [exact H2|constructor].
Qed.

Lemma watch_handshake_broken tr : foldl watch_handshake Broken tr = Broken.
Proof.
  induction tr as [|[ev r] tr IH]; [reflexivity|]. cbn [foldl].
  replace (watch_handshake Broken (ev, r)) with Broken; [exact IH|].
  destruct ev; reflexivity.
Qed.

Lemma handshake_submits tr :
  match foldl watch_handshake Idle tr with
  | Idle => submits tr = []
  | Submitted fut => exists fn, submits tr = [(PoolSubmit fn, Ok (VFuture fut))]
  | Broken => True
  end.
Proof.
  induction tr as [|[ev r] tr IH] using rev_ind; [reflexivity|].
  rewrite foldl_app. cbn [foldl]. unfold submits in *. rewrite List.filter_app.
  destruct (foldl watch_handshake Idle tr) as [|fut|].
  - destruct ev; cbn; try exact I; try (rewrite IH; reflexivity).
    destruct r as [[]|]; try exact I. rewrite IH. eauto.
  - destruct IH as [fn IH].
    destruct ev; cbn; try exact I; try (exists fn; rewrite IH; reflexivity).
    destruct (Nat.eqb fut0 fut); [|exact I]. exists fn. rewrite IH. reflexivity.
  - destruct ev; exact I.
Qed.

Lemma in_order_once tr : in_order tr -> length (submits tr) <= 1.
Proof.
  intros H. pose proof (handshake_submits tr) as Hs. unfold in_order in H.
  destruct (foldl watch_handshake Idle tr); [rewrite Hs; cbn; lia| |congruence].
  destruct Hs as [fn ->]. cbn. lia.
Qed.

Lemma in_order_await t1 fut r t2 :
  in_order (t1 ++ (FutureResult fut, r) :: t2) ->
  exists fn, In (PoolSubmit fn, Ok (VFuture fut)) t1.
Proof.
  unfold in_order. rewrite foldl_app. cbn [foldl]. intros H.
  pose proof (handshake_submits t1) as Hs.
  destruct (foldl watch_handshake Idle t1) as [|fut'|].
  - cbn in H. rewrite watch_handshake_broken in H. congruence.
  - cbn in H. destruct (Nat.eqb fut fut') eqn:E.
    + apply Nat.eqb_eq in E. subst fut'. destruct Hs as [fn Hs]. exists fn.
      assert (Hin : In (PoolSubmit fn, Ok (VFuture fut)) (submits t1))
        by (rewrite Hs; left; reflexivity).
      unfold submits in Hin. apply List.filter_In in Hin. apply Hin.
    + rewrite watch_handshake_broken in H. congruence.
  - cbn in H. rewrite watch_handshake_broken in H. congruence.
Qed.

Lemma watch_result_seen fut tr r :
  foldl (watch_result fut) None tr = Some r -> In (FutureResult fut, r) tr.
Proof.
  induction tr as [|[ev r'] tr IH] using rev_ind; [discriminate|].
  rewrite foldl_app. cbn [foldl]. unfold watch_result at 1. cbn [fst snd].
  intros H. apply in_or_app.
  destruct ev; try (left; apply IH, H).
  destruct (Nat.eqb fut0 fut) eqn:E; [|left; apply IH, H].
  apply Nat.eqb_eq in E. subst fut0. injection H as ->. right. left. reflexivity.
Qed.

Lemma await_in_teardown u fut n :
  terminated u ->
  safe (watch_result fut)
       (fun m p => terminated p -> exists r, m = Some r /\ p = outcome u r)
       (run_and_await u) {| trigger_result := VFuture fut |} n None.
Proof.
  unfold run_and_await, teardown. destruct u as [v|e|ev k]; intros []; cbn;
    unfold watch_result; cbn; rewrite Nat.eqb_refl;
    repeat match goal with
      | |- _ /\ _ => split
      | |- True => exact I
      | |- terminated (Vis _ _) -> _ => intros []
      | |- terminated _ -> _ => intros _; eexists; split; reflexivity
      | |- False -> _ => intros []
      | |- True -> _ => intros _; eexists; split; reflexivity
      | |- forall r : result value, _ => intros [?|?]; cbn
      end.
Qed.

Lemma await_at_teardown u cfg fut sch :
  terminated u ->
  main cfg = run_and_await u ->
  trigger_result (acquisition_state cfg) = VFuture fut ->
  terminated (main (exec sch cfg).1) ->
  exists r, In (FutureResult fut, r) (main_trace (exec sch cfg).2) /\
            main (exec sch cfg).1 = outcome u r.
Proof.
  intros Hu Hm Hst Ht.
  destruct (safe_exec (watch_result fut)
              (fun m p => terminated p -> exists r, m = Some r /\ p = outcome u r)
              sch cfg None) as (r & Hr & Ho); [|exact Ht|].
  - rewrite Hm. destruct (acquisition_state cfg) as [tr]. cbn in Hst. subst tr.
    apply await_in_teardown, Hu.
  - exists r. split; [apply watch_result_seen, Hr|exact Ho].
Qed.

(** ** Nothing of the background reaches the main thread before the await *)

Lemma foreseen_not_await st n ev r :
  foreseen st n ev = Some r -> is_await ev = false.
Proof. destruct ev; [reflexivity..|discriminate]. Qed.

Lemma unforeseen_off_channel st n ev :
  foreseen st n ev = None -> uses_channel ev = false -> is_await ev = true.
Proof. destruct ev as [[]|[]| | | |]; cbn; congruence. Qed.

Lemma await_blocks_trace sch : forall cfg ev k,
  main cfg = Vis ev k -> is_await ev = true ->
  before_await (main_trace (exec sch cfg).2) = [].
Proof.
  induction sch as [|a sch IH]; intros cfg ev k Hm Hev; [reflexivity|].
  rewrite exec_cons_2, main_trace_app.
  assert (Hw : a <> Main ->
    before_await (main_trace (step a cfg).2 ++
                  main_trace (exec sch (step a cfg).1).2) = []).
  { intros Ha. destruct (worker_step_view a cfg Ha) as [Hv Hl]. rewrite Hl.
    unfold view_of in Hv. injection Hv as Hv _ _.
    apply (IH _ ev k); [rewrite Hv; exact Hm|exact Hev]. }
  destruct a; [|apply Hw; discriminate..]. clear Hw. cbn [step].
  destruct (step_main_unforeseen cfg ev k Hm) as [Hb|[r [Hl Hv]]].
  - destruct ev; try discriminate. reflexivity.
  - rewrite Hb. apply (IH cfg ev k Hm Hev).
  - rewrite Hl. cbn. rewrite Hev. reflexivity.
Qed.

Lemma before_await_independent sch : forall c1 c2,
  view_of c1 = view_of c2 ->
  off_channel (main c1) ->
  before_await (main_trace (exec sch c1).2) =
  before_await (main_trace (exec sch c2).2).
Proof.
  induction sch as [|a sch IH]; intros c1 c2 Hv Hoff; [reflexivity|].
  rewrite !exec_cons_2, !main_trace_app.
  assert (Hw : a <> Main ->
    before_await (main_trace (step a c1).2 ++ main_trace (exec sch (step a c1).1).2) =
    before_await (main_trace (step a c2).2 ++ main_trace (exec sch (step a c2).1).2)).
  { intros Ha. destruct (worker_step_view a c1 Ha) as [Hv1 Hl1].
    destruct (worker_step_view a c2 Ha) as [Hv2 Hl2]. rewrite Hl1, Hl2.
    apply IH; [congruence|].
    unfold view_of in Hv1. injection Hv1 as -> _ _. exact Hoff. }
  destruct a; [|apply Hw; discriminate..]. clear Hw. cbn [step].
  destruct (main c1) as [v|e|ev k] eqn:Em.
  - assert (Em2 : main c2 = Ret v) by (unfold view_of in Hv; congruence).
    rewrite !step_main_terminated by (rewrite ?Em, ?Em2; exact I).
    cbn [fst snd app main_trace]. apply IH; [exact Hv|rewrite Em; exact I].
  - assert (Em2 : main c2 = Throw e) by (unfold view_of in Hv; congruence).
    rewrite !step_main_terminated by (rewrite ?Em, ?Em2; exact I).
    cbn [fst snd app main_trace]. apply IH; [exact Hv|rewrite Em; exact I].
  - assert (Em2 : main c2 = Vis ev k) by (unfold view_of in Hv; congruence).
    destruct Hoff as [Hch Hoff].
    destruct (foreseen (acquisition_state c1) (length (futures (pool c1))) ev)
      as [r|] eqn:Ef.
    + set (v' := (k r, state_after (acquisition_state c1) ev,
                  futures_after (length (futures (pool c1))) ev)).
      assert (Ht : turn (view_of c1) = Some (v', (ev, r))).
      { unfold turn, view_of. rewrite Em, Ef. reflexivity. }
      destruct (step_main_turn c1 _ _ Ht) as [Hv1 Hl1].
      rewrite Hv in Ht. destruct (step_main_turn c2 _ _ Ht) as [Hv2 Hl2].
      rewrite Hl1, Hl2. cbn. rewrite (foreseen_not_await _ _ _ _ Ef). f_equal.
      apply IH; [congruence|].
      unfold view_of in Hv1. injection Hv1 as -> _ _. apply Hoff.
    + pose proof (unforeseen_off_channel _ _ _ Ef Hch) as Haw.
      change (main_trace (step_main c1).2 ++ main_trace (exec sch (step_main c1).1).2)
        with (main_trace (step Main c1).2 ++ main_trace (exec sch (step Main c1).1).2).
      change (main_trace (step_main c2).2 ++ main_trace (exec sch (step_main c2).1).2)
        with (main_trace (step Main c2).2 ++ main_trace (exec sch (step Main c2).1).2).
      rewrite <- !main_trace_app, <- !exec_cons_2.
      rewrite (await_blocks_trace (Main :: sch) c1 ev k Em Haw).
      rewrite (await_blocks_trace (Main :: sch) c2 ev k Em2 Haw). reflexivity.
Qed.

Lemma off_channel_bind (p : prog main_event) k :
  off_channel p -> (forall v, off_channel (k v)) -> off_channel (bind p k).
Proof.
  intros Hp Hk. induction p as [v|e|ev h IH]; cbn; [apply Hk|exact I|].
  destruct Hp as [Hev Hp]. split; [exact Hev|]. intros r. apply IH, Hp.
Qed.

Lemma off_channel_context K (p : prog main_event) :
  context K -> off_channel p -> (forall out, off_channel (K (reply out))) ->
  off_channel (K p).
Proof.
  intros HK Hp Hout. induction p as [v|e|ev h IH].
  - apply (Hout (Ok v)).
  - apply (Hout (Raise e)).
  - rewrite HK. destruct Hp as [Hev Hp]. split; [exact Hev|].
    intros r. apply IH, Hp.
Qed.

Lemma off_channel_runner (q : prog runner_event) : off_channel (embed Runner q).
Proof.
  induction q as [v|e|ev h IH]; cbn; [exact I..|]. split; [reflexivity|exact IH].
Qed.

Ltac crawl :=
  repeat (cbn; match goal with
               | |- _ /\ _ => split
               | |- True => exact I
               | |- _ = _ => reflexivity
               | |- forall r : result value, _ => intros [[]|]
               end).

Lemma off_channel_trigger aq : off_channel (trigger aq).
Proof. unfold trigger. destruct (unpack2 (nav (shape aq))) as [[h w]|e]; crawl. Qed.

Lemma off_channel_teardown out : off_channel (run_and_await (reply out)).
Proof. unfold run_and_await, teardown. destruct out; crawl. Qed.

Lemma off_channel_run_udf before collect aq :
  off_channel (run_and_await (run_udf before collect aq)).
Proof.
  apply off_channel_context;
    [apply context_run_and_await| |apply off_channel_teardown].
  unfold run_udf. apply off_channel_bind; [apply off_channel_runner|]. intros _.
  apply off_channel_bind; [apply off_channel_trigger|]. intros _.
  apply off_channel_runner.
Qed.

Lemma first_session_state :
  trigger_result (acquisition_state first_session) = VFuture 0.
Proof. vm_compute. reflexivity. Qed.

Lemma second_session_trace :
  let tr := main_trace (exec (replicate 23 Main) second_session).2 in
  tr = before_await tr ++
       [(FutureResult 0, Ok VNone); (IO (Print (Fmt "result = " VNone)), Ok VNone)].
Proof. vm_compute. reflexivity. Qed.

Lemma second_session_submits :
  submits (main_trace (exec (replicate 23 Main) second_session).2) = [].
Proof. vm_compute. reflexivity. Qed.

Lemma recorded_run_trace :
  let tr := main_trace
              (exec (replicate 22 Main ++ Start :: replicate 5 (Work 0)
                     ++ replicate 8 Main)
                    (notebook [] (run_cell (run_udf (Ret VNone) two_frames aq_scan)
                                           aq_scan))).2 in
  tr = before_await tr ++
       [(FutureResult 0, Ok VNone); (IO (Print (Fmt "result = " VNone)), Ok VNone);
        (IO (Print (Str "Finished.")), Ok VNone)].
Proof. vm_compute. reflexivity. Qed.

(** C6, as the code has it: in a run of cell 23 that starts with no handle
    in the global state (as cell 11 leaves it), whatever the pool and the
    channel are by then, under every schedule, the main thread submits at
    most one background action and awaits no future but the one that an
    earlier submission of this run returned; when the global state holds
    [None] at the teardown, the teardown awaits nothing and the cell ends. *)
Theorem await_only_after_submission :
  (forall (before collect : prog runner_event) (aq : acquisition)
          (cfg : config),
      main cfg = run_cell (run_udf before collect aq) aq ->
      trigger_result (acquisition_state cfg) = VNone ->
      handshake_in_order cfg) /\
  (forall (u : prog main_event) (cfg : config) (sch : list action),
      terminated u ->
      main cfg = run_and_await u ->
      trigger_result (acquisition_state cfg) = VNone ->
      Forall (fun l => is_await l.1 = false) (main_trace (exec sch cfg).2) /\
      (main_turns sch = match u with Throw _ => 1 | _ => 2 end ->
       main (exec sch cfg).1 = match u with Throw e => Throw e | _ => Ret VNone end)).
Proof.
  split.
  - intros before collect aq cfg Hm Hn sch tr.
    assert (H : in_order tr).
    { apply (safe_exec watch_handshake (fun m _ => m <> Broken) sch cfg Idle).
      rewrite Hm. destruct (acquisition_state cfg) as [v]. cbn in Hn. subst v.
      apply handshake_run_cell. }
    split; [apply in_order_once, H|].
    intros t1 fut r t2 Htr. rewrite Htr in H. exact (in_order_await _ _ _ _ H).
  - intros u cfg sch Hu Hm Hn. split.
    + apply watch_await_false.
      apply (safe_exec watch_await (fun m _ => m = false) sch cfg false).
      rewrite Hm. destruct (acquisition_state cfg) as [tr]. cbn in Hn. subst tr.
      apply no_await_without_handle, Hu.
    + intros Ht. destruct (acquisition_state cfg) as [tr] eqn:Est. cbn in Hn. subst tr.
      destruct u as [v|e|ev k]; [| |destruct Hu].
      * destruct (exec_turns 2 (run_and_await (Ret v), {| trigger_result := VNone |},
                                length (futures (pool cfg))) _ _ sch cfg eq_refl)
          as [Hv _]; [unfold view_of; rewrite Hm, Est; reflexivity|exact Ht|].
        unfold view_of in Hv. injection Hv as Hv _ _. exact Hv.
      * destruct (exec_turns 1 (run_and_await (Throw e), {| trigger_result := VNone |},
                                length (futures (pool cfg))) _ _ sch cfg eq_refl)
          as [Hv _]; [unfold view_of; rewrite Hm, Est; reflexivity|exact Ht|].
        unfold view_of in Hv. injection Hv as Hv _ _. exact Hv.
Qed.

Lemma await_only_after_submission_witness :
  (let tr := main_trace
               (exec (replicate 22 Main ++ Start :: replicate 5 (Work 0)
                      ++ replicate 8 Main)
                     (notebook [] (run_cell (run_udf (Ret VNone) two_frames aq_scan)
                                            aq_scan))).2 in
   length (submits tr) <= 1 /\
   exists fn, In (PoolSubmit fn, Ok (VFuture 0)) (before_await tr)) /\
  Forall (fun l => is_await l.1 = false)
         (main_trace (exec [Main; Start; Main]
                           (notebook [] (run_and_await (Throw ValueError)))).2) /\
  main (exec [Main; Start; Main]
             (notebook [] (run_and_await (Ret VNone)))).1 = Ret VNone.
Proof.
  destruct await_only_after_submission as [H1 H2]. split; [|split].
  - destruct (H1 (Ret VNone) two_frames aq_scan
                 (notebook [] (run_cell (run_udf (Ret VNone) two_frames aq_scan)
                                        aq_scan))
                 eq_refl eq_refl
                 (replicate 22 Main ++ Start :: replicate 5 (Work 0)
                  ++ replicate 8 Main)) as [Hs Ha].
    split; [exact Hs|]. exact (Ha _ _ _ _ recorded_run_trace).
  - exact (proj1 (H2 (Throw ValueError)
                     (notebook [] (run_and_await (Throw ValueError)))
                     [Main; Start; Main] I eq_refl eq_refl)).
  - exact (proj2 (H2 (Ret VNone) (notebook [] (run_and_await (Ret VNone)))
                     [Main; Start; Main] I eq_refl eq_refl) eq_refl).
Defined.

(** C6, as the claim has it for every session, fails for a later run of
    cell 23: the global state still holds the future of the run before, and
    when the runner raises before it calls [trigger] the teardown awaits
    that future although this run has submitted nothing. *)
Lemma stale_handle_awaited_without_submission :
  let tr := main_trace (exec (replicate 23 Main) second_session).2 in
  trigger_result (acquisition_state second_session) = VFuture 0 /\
  submits tr = [] /\
  In (FutureResult 0, Ok VNone) tr /\
  ~ handshake_in_order second_session.
Proof.
  intros tr. split; [exact first_session_state|].
  split; [exact second_session_submits|]. split.
  - subst tr. rewrite second_session_trace. apply in_or_app. right. left. reflexivity.
  - intros H. destruct (H (replicate 23 Main)) as [_ Ha].
    destruct (Ha _ _ _ _ second_session_trace) as [fn Hin].
    vm_compute in Hin.
    repeat (destruct Hin as [Hin|Hin]; [discriminate Hin|]). exact Hin.
Qed.

Lemma scan_failed_main : main scan_failed = run_and_await (Ret VNone).
Proof. vm_compute. reflexivity. Qed.

Lemma scan_failed_state :
  trigger_result (acquisition_state scan_failed) = VFuture 0.
Proof. vm_compute. reflexivity. Qed.

Lemma scan_failed_future :
  futures (pool scan_failed) !! 0 = Some (Finished (Raise ProtocolError)).
Proof. vm_compute. reflexivity. Qed.

Lemma acquisition_failed_main :
  main acquisition_failed = run_and_await (Throw (RuntimeError "no frames")).
Proof. vm_compute. reflexivity. Qed.

Lemma acquisition_failed_state :
  trigger_result (acquisition_state acquisition_failed) = VFuture 0.
Proof. vm_compute. reflexivity. Qed.

Lemma acquisition_failed_future :
  futures (pool acquisition_failed) !! 0 = Some (Finished (Ok VNone)).
Proof. vm_compute. reflexivity. Qed.

Lemma reraise_at_await u cfg fut e :
  terminated u ->
  main cfg = run_and_await u ->
  trigger_result (acquisition_state cfg) = VFuture fut ->
  futures (pool cfg) !! fut = Some (Finished (Raise e)) ->
  main (exec (replicate 4 Main) cfg).1 = Throw e /\
  last (main_trace (exec (replicate 4 Main) cfg).2) =
    Some (FutureResult fut, Raise e).
Proof.
  intros Hu Hm Hst Hf. destruct cfg as [m w [st] ex]. cbn in Hm, Hst, Hf. subst m st.
  unfold run_and_await, teardown.
  destruct u as [v|e0|ev k]; [| |destruct Hu]; cbn; rewrite Hf; cbn;
    split; reflexivity.
Qed.

(** ** The await of the [finally] suite is the only one *)

Lemma teardown_phases out st n :
  safe watch_teardown (fun m _ => m <> Astray)
       (run_and_await (reply out)) st n InUdf.
Proof.
  unfold run_and_await, teardown. destruct st as [v].
  destruct out as [x|e], v as [|z|q|s|h]; cbn; rewrite ?Nat.eqb_refl;
    repeat split; try discriminate;
    intros [?|?]; cbn; repeat split; discriminate.
Qed.

Lemma teardown_run_udf before collect aq st n :
  safe watch_teardown (fun m _ => m <> Astray)
       (run_and_await (run_udf before collect aq)) st n InUdf.
Proof.
  unfold run_udf.
  refine (safe_embed_at Runner _ _
            (fun p => run_and_await (bind p (fun _ => bind (trigger aq)
                                       (fun _ => embed Runner collect))))
            before _ runner_quiet _ _ _ _ _ _).
  - intros ev h. reflexivity.
  - intros [] r. reflexivity.
  - discriminate.
  - intros [v|e]; [|apply (teardown_phases (Raise e))].
    cbn [reply bind]. unfold trigger.
    destruct (unpack2 (nav (shape aq))) as [[h w]|e].
    + cbn. repeat (split; [discriminate|]).
      refine (safe_embed_at Runner _ _ run_and_await collect
                context_run_and_await runner_quiet _ _ _ _ _ _).
      * intros [] r. reflexivity.
      * discriminate.
      * intros out. apply teardown_phases.
    + cbn. repeat (split; [discriminate|]).
      apply (teardown_phases (Raise e)).
Qed.

Lemma teardown_run_cell before collect aq st n :
  safe watch_teardown (fun m _ => m <> Astray)
       (run_cell (run_udf before collect aq) aq) st n InUdf.
Proof.
  unfold run_cell. cbn. split; [discriminate|].
  refine (safe_embed_at IO _ _
            (fun p => bind p (fun _ => run_and_await (run_udf before collect aq)))
            (setup_and_arm aq) _ io_quiet _ _ _ _ _ _).
  - intros ev h. reflexivity.
  - intros ev r. reflexivity.
  - discriminate.
  - intros [v|e]; cbn; [apply teardown_run_udf|]. split; [discriminate|exact I].
Qed.

Lemma watch_teardown_astray tr : foldl watch_teardown Astray tr = Astray.
Proof. induction tr as [|l tr IH]; [reflexivity|]. destruct l as [[] ?]; exact IH. Qed.

Lemma watch_teardown_await m fut r :
  watch_teardown m (FutureResult fut, r) <> Astray ->
  m = Ready fut /\ watch_teardown m (FutureResult fut, r) = Awaited.
Proof.
  destruct m as [| | |f| | |]; cbn; try (intros H; destruct H; reflexivity).
  destruct (Nat.eqb_spec fut f) as [->|]; [auto|]. intros H; destruct H; reflexivity.
Qed.

Lemma watch_teardown_ready m l fut :
  watch_teardown m l = Ready fut ->
  m = Waiting /\ l = (ReadTriggerResult, Ok (VFuture fut)).
Proof.
  destruct m, l as [[[[]| | | | |]| | | | |] [[]|]]; cbn; try discriminate;
    try (destruct (String.eqb _ _); discriminate);
    try (destruct (Nat.eqb _ _); discriminate).
  intros [= ->]. auto.
Qed.

Lemma watch_teardown_waiting m l :
  watch_teardown m l = Waiting ->
  m = Guarded /\
  l = (IO (Print (Str "Waiting for blocking scan function...")), l.2).
Proof.
  destruct m, l as [[[[]| | | | |]| | | | |] r]; cbn; try discriminate;
    try (destruct r as [[]|]; discriminate);
    try (destruct (Nat.eqb _ _); discriminate).
  destruct (String.eqb_spec s "Waiting for blocking scan function...") as [->|];
    [auto|discriminate].
Qed.

Lemma watch_teardown_guarded m l :
  watch_teardown m l = Guarded -> m = InUdf /\ l = (ReadTriggerResult, l.2).
Proof.
  destruct m, l as [[[[]| | | | |]| | | | |] r]; cbn; try discriminate;
    try (destruct r as [[]|]; discriminate);
    try (destruct (String.eqb _ _); discriminate);
    try (destruct (Nat.eqb _ _); discriminate).
  auto.
Qed.

Lemma watch_teardown_in_udf m l :
  watch_teardown m l = InUdf ->
  m = InUdf /\ is_await l.1 = false /\ l.1 <> ReadTriggerResult.
Proof.
  destruct m, l as [[[[]| | | | |]| | | | |] r]; cbn; try discriminate;
    try (destruct r as [[]|]; discriminate);
    try (destruct (String.eqb _ _); discriminate);
    try (destruct (Nat.eqb _ _); discriminate);
    intros _; repeat split; discriminate.
Qed.

Lemma in_udf_so_far tr :
  foldl watch_teardown InUdf tr = InUdf ->
  Forall (fun l => is_await l.1 = false /\ l.1 <> ReadTriggerResult) tr.
Proof.
  induction tr as [|l tr IH] using rev_ind; [constructor|].
  rewrite foldl_app. cbn. intros H.
  apply watch_teardown_in_udf in H as (Hm & Hl). apply Forall_app.
  split; [exact (IH Hm)|repeat constructor; tauto].
Qed.

Lemma after_await_prints tr :
  foldl watch_teardown Awaited tr <> Astray ->
  Forall (fun l => is_print l.1 = true) tr.
Proof.
  induction tr as [|l tr IH]; [constructor|]. cbn [foldl].
  destruct l as [[[[]| | | | |]| | | | |] r]; cbn;
    try (rewrite watch_teardown_astray; intros H; destruct H; reflexivity).
  all: intros H; constructor; [reflexivity|exact (IH H)].
Qed.

(** What a trace that never went astray looks like around an await. *)
Lemma await_in_finally t1 fut r t2 :
  foldl watch_teardown InUdf (t1 ++ (FutureResult fut, r) :: t2) <> Astray ->
  (exists a r0 p,
      t1 = a ++ [(ReadTriggerResult, r0);
                 (IO (Print (Str "Waiting for blocking scan function...")), p);
                 (ReadTriggerResult, Ok (VFuture fut))] /\
      Forall (fun l => is_await l.1 = false /\ l.1 <> ReadTriggerResult) a) /\
  Forall (fun l => is_print l.1 = true) t2.
Proof.
  rewrite foldl_app. cbn [foldl]. intros H.
  assert (H1 : watch_teardown (foldl watch_teardown InUdf t1) (FutureResult fut, r)
               <> Astray).
  { intros E. rewrite E, watch_teardown_astray in H. destruct H. reflexivity. }
  apply watch_teardown_await in H1 as [Hr Ha]. rewrite Ha in H.
  split; [|exact (after_await_prints t2 H)]. clear H Ha.
  destruct t1 as [|x t1] using rev_ind; [discriminate Hr|clear IHt1].
  rewrite foldl_app in Hr. cbn in Hr.
  apply watch_teardown_ready in Hr as [Hw ->].
  destruct t1 as [|x t1] using rev_ind; [discriminate Hw|clear IHt1].
  rewrite foldl_app in Hw. cbn in Hw.
  apply watch_teardown_waiting in Hw as [Hg Hx].
  destruct t1 as [|y t1] using rev_ind; [discriminate Hg|clear IHt1].
  rewrite foldl_app in Hg. cbn in Hg.
  apply watch_teardown_guarded in Hg as [Hu Hy].
  exists t1, y.2, x.2. split; [|exact (in_udf_so_far t1 Hu)].
  rewrite Hx, Hy at 1. rewrite <- !app_assoc. reflexivity.
Qed.

(** C2: an exception raised by a background function is stored in its
    future by the worker, with the main thread left as it was; what the main
    thread does and sees while [ctx.run_udf] runs, up to its first await, is
    the same whatever the background does; the main thread awaits a future
    nowhere but in the [finally] suite: under every schedule, an await in
    its trace comes right after the guard's read of the state, the line
    that announces the wait and the read of the future, nothing before
    those is an await or a read of the state, and nothing after the await
    is anything but a print, so that neither [trigger] nor [ctx.run_udf]
    ever asks for the result; the exception is re-raised in the main thread
    by that await. *)
Theorem background_exception_surfaces_only_at_await :
  (forall (cfg : config) (i : nat) (fut : handle) (e : exn),
      threads (pool cfg) !! i = Some (fut, Throw e) ->
      fut < length (futures (pool cfg)) ->
      view_of (step (Work i) cfg).1 = view_of cfg /\
      (step (Work i) cfg).2 = [LFinish fut (Raise e)] /\
      futures (pool (step (Work i) cfg).1) !! fut = Some (Finished (Raise e))) /\
  (forall (before collect : prog runner_event) (aq : acquisition)
          (c1 c2 : config) (sch : list action),
      main c1 = run_and_await (run_udf before collect aq) ->
      view_of c1 = view_of c2 ->
      before_await (main_trace (exec sch c1).2) =
      before_await (main_trace (exec sch c2).2)) /\
  (forall (before collect : prog runner_event) (aq : acquisition)
          (cfg : config) (sch : list action)
          (t1 t2 : list (main_event * result value)) (fut : handle)
          (r : result value),
      main cfg = run_cell (run_udf before collect aq) aq \/
      main cfg = run_and_await (run_udf before collect aq) ->
      main_trace (exec sch cfg).2 = t1 ++ (FutureResult fut, r) :: t2 ->
      (exists a r0 p,
          t1 = a ++ [(ReadTriggerResult, r0);
                     (IO (Print (Str "Waiting for blocking scan function...")), p);
                     (ReadTriggerResult, Ok (VFuture fut))] /\
          Forall (fun l => is_await l.1 = false /\ l.1 <> ReadTriggerResult) a) /\
      Forall (fun l => is_print l.1 = true) t2) /\
  (forall (u : prog main_event) (cfg : config) (fut : handle)
          (sch : list action) (e : exn),
      terminated u ->
      main cfg = run_and_await u ->
      trigger_result (acquisition_state cfg) = VFuture fut ->
      (terminated (main (exec sch cfg).1) ->
       exists r, In (FutureResult fut, r) (main_trace (exec sch cfg).2) /\
                 main (exec sch cfg).1 = outcome u r) /\
      (futures (pool cfg) !! fut = Some (Finished (Raise e)) ->
       main (exec (replicate 4 Main) cfg).1 = Throw e /\
       last (main_trace (exec (replicate 4 Main) cfg).2) =
         Some (FutureResult fut, Raise e))).
Proof.
  split; [|split; [|split]].
  - intros cfg i fut e Ht Hlt. split; [apply (worker_step_view (Work i)); discriminate|].
    cbn [step]. unfold step_work, finish. rewrite Ht. cbn.
    split; [reflexivity|]. apply list_lookup_insert_eq, Hlt.
  - intros before collect aq c1 c2 sch Hm Hv.
    apply before_await_independent; [exact Hv|].
    rewrite Hm. apply off_channel_run_udf.
  - intros before collect aq cfg sch t1 t2 fut r Hm Htr.
    apply (await_in_finally t1 fut r t2). rewrite <- Htr.
    apply (safe_exec watch_teardown (fun m _ => m <> Astray) sch cfg InUdf).
    destruct Hm as [-> | ->]; [apply teardown_run_cell|apply teardown_run_udf].
  - intros u cfg fut sch e Hu Hm Hst. split.
    + intros Ht. exact (await_at_teardown u cfg fut sch Hu Hm Hst Ht).
    + intros Hf. exact (reraise_at_await u cfg fut e Hu Hm Hst Hf).
Qed.

(** C9: when [ctx.run_udf] raises while a future is stored, the cell does
    not end before the teardown has awaited that future, under every
    schedule; once the background function has finished, the exception of
    [ctx.run_udf] propagates (or the one of the background function, if it
    raised as well). *)
Theorem teardown_awaits_when_acquisition_raises
    (e : exn) (cfg : config) (fut : handle) (sch : list action) :
  main cfg = run_and_await (Throw e) ->
  trigger_result (acquisition_state cfg) = VFuture fut ->
  (terminated (main (exec sch cfg).1) ->
   exists r, In (FutureResult fut, r) (main_trace (exec sch cfg).2) /\
             main (exec sch cfg).1 =
             Throw (match r with Ok _ => e | Raise e' => e' end)) /\
  (forall v, futures (pool cfg) !! fut = Some (Finished (Ok v)) ->
             main (exec (replicate 5 Main) cfg).1 = Throw e).
Proof.
  intros Hm Hst. split.
  - intros Ht.
    destruct (await_at_teardown (Throw e) cfg fut sch I Hm Hst Ht) as (r & Hin & Ho).
    exists r. split; [exact Hin|]. rewrite Ho. destruct r; reflexivity.
  - intros v Hf. destruct cfg as [m w [st] ex]. cbn in Hm, Hst, Hf. subst m st.
    unfold run_and_await, teardown. cbn. rewrite Hf. reflexivity.
Qed.


Lemma teardown_awaits_when_acquisition_raises_witness :
  main (exec (replicate 5 Main) acquisition_failed).1 =
  Throw (RuntimeError "no frames").
Proof.
  exact (proj2 (teardown_awaits_when_acquisition_raises
                  (RuntimeError "no frames") acquisition_failed 0 []
                  acquisition_failed_main acquisition_failed_state)
               VNone acquisition_failed_future).
Defined.

Lemma background_exception_surfaces_only_at_await_witness :
  main (exec (replicate 4 Main) scan_failed).1 = Throw ProtocolError /\
  exists a r0 p,
    before_await
      (main_trace
         (exec (replicate 22 Main ++ Start :: replicate 5 (Work 0)
                ++ replicate 8 Main)
               (notebook [] (run_cell (run_udf (Ret VNone) two_frames aq_scan)
                                      aq_scan))).2)
    = a ++ [(ReadTriggerResult, r0);
            (IO (Print (Str "Waiting for blocking scan function...")), p);
            (ReadTriggerResult, Ok (VFuture 0))] /\
    Forall (fun l => is_await l.1 = false /\ l.1 <> ReadTriggerResult) a.
Proof.
  destruct background_exception_surfaces_only_at_await as (_ & _ & H1 & H2). split.
  - exact (proj1 (proj2 (H2 (Ret VNone) scan_failed 0 [] ProtocolError
                            I scan_failed_main scan_failed_state)
                        scan_failed_future)).
  - exact (proj1 (H1 (Ret VNone) two_frames aq_scan
                     (notebook [] (run_cell (run_udf (Ret VNone) two_frames aq_scan)
                                            aq_scan))
                     _ _ _ _ _ (or_introl eq_refl) recorded_run_trace)).
Defined.

Lemma control_channel_closed_on_every_exit_witness :
  connected
    (c (run_io (with_c (call (ChanCmd "SOFTTRIGGER")))
               {| c := MerlinControl [None; Some IOError]; stdout := [] |}).1.2)
  = false.
Proof.
  exact (proj1 control_channel_closed_on_every_exit
               (call (ChanCmd "SOFTTRIGGER"))
               {| c := MerlinControl [None; Some IOError]; stdout := [] |}
               eq_refl).
Defined.

(** ** The recorded run of the notebook

    One schedule of the whole cell against an endpoint that accepts every
    request: the lines printed are those saved in the notebook's output, in
    their order, and the last command on the wire is the soft trigger. *)
Example notebook_recorded_run :
  let out := exec (replicate 22 Main ++ Start :: replicate 5 (Work 0)
                   ++ replicate 8 Main)
                  (notebook [] (run_cell (run_udf (Ret VNone) two_frames aq_scan)
                                         aq_scan)) in
  main out.1 = Ret VNone /\
  stdout (shared out.1) =
    [Str "Connecting Merlin control...";
     Str "Setting Merlin acquisition parameters";
     Str "Finished Merlin setup.";
     Str "Setting resolution...";
     Str "Arming Merlin...";
     Str "Merlin ready for trigger.";
     Str "Triggering!";
     Str "do_scan()";
     Str "Waiting for blocking scan function...";
     Fmt "result = " VNone;
     Str "Finished."] /\
  last (wire (c (shared out.1))) = Some (CmdCmd "SOFTTRIGGER") /\
  connected (c (shared out.1)) = false.
Proof. vm_compute. repeat split. Qed.

(** * Further properties of the notebook's code *)

Lemma sends_ret v : sends (Ret v) [].
Proof.
  intros w Hc. split; [exact Hc|]. exists 0. cbn. rewrite app_nil_r. auto.
Qed.

Lemma sends_throw e : sends (Throw e) [].
Proof.
  intros w Hc. split; [exact Hc|]. exists 0. cbn. rewrite app_nil_r. auto.
Qed.

Lemma sends_print t : sends (call (Print t)) [].
Proof.
  intros w Hc. split; [exact Hc|]. exists 0. cbn. rewrite app_nil_r. auto.
Qed.

Lemma sends_one (ev : io_event) (m : command) :
  (forall w, perform_io ev w =
             let (r, ch) := chan_send m (c w) in (r, {| c := ch; stdout := stdout w |})) ->
  sends (call ev) [m].
Proof.
  intros Hev w Hc. cbn. rewrite Hev. unfold chan_send. rewrite Hc.
  destruct (next_outcome (script (c w))) as [[e|] rest]; cbn.
  - split; [reflexivity|]. exists 1. cbn.
    split; [lia|]. split; [reflexivity|]. discriminate.
  - split; [reflexivity|]. exists 1. cbn. auto.
Qed.

Lemma sends_set key v : sends (call (ChanSet key v)) [CmdSet key v].
Proof. apply sends_one. reflexivity. Qed.

Lemma sends_cmd name : sends (call (ChanCmd name)) [CmdCmd name].
Proof. apply sends_one. reflexivity. Qed.

Lemma sends_bind p k l1 l2 :
  sends p l1 -> (forall v, sends (k v) l2) -> sends (bind p k) (l1 ++ l2).
Proof.
  intros Hp Hk w Hc. rewrite run_io_bind.
  destruct (Hp w Hc) as (Hc1 & k1 & Hle1 & Hw1 & Hok1).
  destruct (run_io p w) as [[o1 w1] tr1]. cbn [fst snd] in *.
  destruct o1 as [v|e].
  - specialize (Hok1 v eq_refl). subst k1.
    destruct (Hk v w1 Hc1) as (Hc2 & k2 & Hle2 & Hw2 & Hok2).
    destruct (run_io (k v) w1) as [[o2 w2] tr2]. cbn [fst snd] in *.
    split; [exact Hc2|]. exists (length l1 + k2).
    split; [rewrite length_app; lia|]. split.
    + rewrite Hw2, Hw1, take_app_add, firstn_all, <- app_assoc. reflexivity.
    + intros v2 Hv2. rewrite (Hok2 v2 Hv2), length_app. reflexivity.
  - cbn. split; [exact Hc1|]. exists k1. split; [rewrite length_app; lia|].
    split; [|discriminate]. rewrite Hw1, take_app_le by lia. reflexivity.
Qed.

Lemma sends_merlin_setup dwell_time depth save_path :
  sends (merlin_setup dwell_time depth save_path)
        (merlin_commands dwell_time depth save_path).
Proof.
  unfold merlin_setup, merlin_commands.
  apply (sends_bind _ _ []); [apply sends_print|intros _].
  apply (sends_bind _ _ [_]); [apply sends_set|intros _].
  apply (sends_bind _ _ [_]); [apply sends_set|intros _].
  apply (sends_bind _ _ [_]); [apply sends_set|intros _].
  apply (sends_bind _ _ [_]); [apply sends_set|intros _].
  apply (sends_bind _ _ [_]); [apply sends_set|intros _].
  apply (sends_bind _ _ [_]); [apply sends_set|intros _].
  rewrite <- (app_nil_r (match save_path with Some _ => _ | None => _ end)).
  apply sends_bind.
  - destruct save_path as [path|].
    + apply (sends_bind _ _ [_]); [apply sends_set|intros _].
      apply (sends_bind _ _ [_]); [apply sends_set|intros _].
      apply (sends_bind _ _ [_]); [apply sends_set|intros _].
      apply (sends_bind _ _ [_]); [apply sends_set|intros _].
      apply sends_set.
    + apply sends_set.
  - intros _. apply (sends_bind _ _ [] []); [apply sends_print|intros _].
    apply sends_ret.
Qed.

Lemma sends_set_nav aq :
  sends (set_nav aq)
        match unpack2 (nav (shape aq)) with
        | Ok (height, width) =>
            [CmdSet "NUMFRAMESTOACQUIRE" (VInt (height * width));
             CmdSet "NUMFRAMESPERTRIGGER" (VInt (height * width))]
        | Raise _ => []
        end.
Proof.
  unfold set_nav. destruct (unpack2 (nav (shape aq))) as [[h w]|e].
  - apply (sends_bind _ _ []); [apply sends_print|intros _].
    apply (sends_bind _ _ [_]); [apply sends_set|intros _].
    apply (sends_bind _ _ [_] []); [apply sends_set|intros _].
    apply sends_ret.
  - apply sends_throw.
Qed.

Lemma sends_arm : sends arm [CmdCmd "STARTACQUISITION"].
Proof.
  unfold arm.
  apply (sends_bind _ _ []); [apply sends_print|intros _].
  apply (sends_bind _ _ [_] []); [apply sends_cmd|intros _].
  apply (sends_bind _ _ [] []); [apply sends_print|intros _].
  apply sends_ret.
Qed.

(** Leaving a [with c:] scope: the body's outcome, the channel closed. *)
Lemma run_io_scope_exit (body : prog io_event) : forall w,
  (run_io (try_finally body (call ChanExit)) w).1.1 = (run_io body w).1.1 /\
  wire (c (run_io (try_finally body (call ChanExit)) w).1.2) =
  wire (c (run_io body w).1.2).
Proof.
  induction body as [v|e|ev h IH]; intros w; try (split; reflexivity).
  cbn. destruct (perform_io ev w) as [r w1]. specialize (IH r w1).
  destruct (run_io (try_finally (h r) (call ChanExit)) w1) as [[o w2] tr2].
  destruct (run_io (h r) w1) as [[o' w2'] tr2']. exact IH.
Qed.

Lemma with_c_sends body cmds w :
  sends body cmds ->
  exists k,
    k <= length cmds /\
    wire (c (run_io (with_c body) w).1.2) = wire (c w) ++ take k cmds /\
    (forall v, (run_io (with_c body) w).1.1 = Ok v -> k = length cmds).
Proof.
  intros Hb. unfold with_c. cbn. unfold chan_enter.
  destruct (next_outcome (script (c w))) as [[e|] rest]; cbn.
  - exists 0. cbn. rewrite app_nil_r. split; [lia|]. split; [reflexivity|]. discriminate.
  - match goal with |- context [run_io _ ?w1] =>
      destruct (Hb w1 eq_refl) as (_ & k & Hle & Hw & Hok);
      destruct (run_io_scope_exit body w1) as [Ho Hwire];
      destruct (run_io (try_finally body (call ChanExit)) w1) as [[o w2] tr2];
      destruct (run_io body w1) as [[o' w2'] tr2'] end.
    cbn [fst snd] in *. subst o'. exists k. split; [exact Hle|].
    rewrite Hwire. split; [exact Hw|exact Hok].
Qed.

Lemma unpack2_not_two (t : list Z) :
  length t <> 2 -> unpack2 t = Raise ValueError.
Proof. destruct t as [|a [|b [|x t]]]; cbn; intros H; try reflexivity. lia. Qed.

Lemma unpack2_two (t : list Z) p :
  unpack2 t = Ok p -> t = [p.1; p.2].
Proof.
  destruct t as [|a [|b [|x t]]]; cbn; try discriminate. intros [= <-]. reflexivity.
Qed.

Lemma sends_setup_body aq :
  sends (merlin_setup default_dwell_time 6 None ;; microscope_setup default_dwell_time ;;
         set_nav aq ;; arm)
        (setup_commands aq).
Proof.
  unfold setup_commands.
  apply sends_bind; [apply sends_merlin_setup|intros _].
  cbn [microscope_setup bind].
  pose proof (sends_set_nav aq) as Hn. unfold set_nav in *.
  destruct (unpack2 (nav (shape aq))) as [[h w]|e].
  - apply (sends_bind _ _ [_; _] [_]); [exact Hn|intros _; apply sends_arm].
  - apply sends_throw.
Qed.

(** Entering the scope: either the connection is refused, or the scope
    ends as its body does. *)
Lemma scope_outcome body w :
  (exists e, (run_io (with_c body) w).1.1 = Raise e /\
             (run_io (with_c body) w).1.2 =
             {| c := {| connected := connected (c w); wire := wire (c w);
                        script := (next_outcome (script (c w))).2 |};
                stdout := stdout w |}) \/
  (run_io (with_c body) w).1.1 =
  (run_io body {| c := {| connected := true; wire := wire (c w);
                          script := (next_outcome (script (c w))).2 |};
                  stdout := stdout w |}).1.1.
Proof.
  unfold with_c. cbn. unfold chan_enter.
  destruct (next_outcome (script (c w))) as [[e|] rest]; cbn.
  - left. eauto.
  - right.
    match goal with |- context [run_io _ ?w1] =>
      destruct (run_io_scope_exit body w1) as [Ho _];
      destruct (run_io (try_finally body (call ChanExit)) w1) as [[o w2] tr2];
      destruct (run_io body w1) as [[o' w2'] tr2'] end.
    exact Ho.
Qed.

Lemma setup_body_raises aq e w :
  unpack2 (nav (shape aq)) = Raise e ->
  exists e', (run_io (merlin_setup default_dwell_time 6 None ;; microscope_setup default_dwell_time ;;
                      set_nav aq ;; arm) w).1.1 = Raise e'.
Proof.
  intros Hu. rewrite run_io_bind.
  destruct (run_io (merlin_setup default_dwell_time 6 None) w) as [[o w1] tr1].
  destruct o as [v|e1]; [|cbn; eauto].
  unfold set_nav. rewrite Hu. cbn. eauto.
Qed.

Lemma start_only_last (height width : Z) k :
  k <= length (merlin_commands default_dwell_time 6 None ++ scan_commands height width) ->
  In (CmdCmd "STARTACQUISITION")
     (take k (merlin_commands default_dwell_time 6 None ++ scan_commands height width)) ->
  k = length (merlin_commands default_dwell_time 6 None ++ scan_commands height width).
Proof.
  cbn. intros Hle Hin.
  do 10 (destruct k as [|k]; [cbn in Hin; repeat destruct Hin as [Hin|Hin];
                               try discriminate Hin; destruct Hin|]).
  lia.
Qed.

Lemma setup_scope_prefix aq w :
  exists k,
    k <= length (setup_commands aq) /\
    wire (c (run_io (setup_and_arm aq) w).1.2) =
      wire (c w) ++ take k (setup_commands aq) /\
    (forall v, (run_io (setup_and_arm aq) w).1.1 = Ok v ->
               k = length (setup_commands aq)).
Proof. exact (with_c_sends _ _ w (sends_setup_body aq)). Qed.

Lemma setup_scope_raises aq e w :
  unpack2 (nav (shape aq)) = Raise e ->
  exists e', (run_io (setup_and_arm aq) w).1.1 = Raise e'.
Proof.
  intros Hu. unfold setup_and_arm.
  destruct (scope_outcome
              (merlin_setup default_dwell_time 6 None ;; microscope_setup default_dwell_time ;;
               set_nav aq ;; arm) w) as [(e1 & He1 & _)|Ho]; [eauto|].
  rewrite Ho. apply (setup_body_raises aq e), Hu.
Qed.

Lemma setup_scope_ok_two_axes aq w v :
  (run_io (setup_and_arm aq) w).1.1 = Ok v ->
  exists height width, nav (shape aq) = [height; width].
Proof.
  intros Hv. destruct (unpack2 (nav (shape aq))) as [[h w']|e] eqn:Hu.
  - exists h, w'. exact (unpack2_two _ _ Hu).
  - destruct (setup_scope_raises aq e w Hu) as [e' He']. congruence.
Qed.

Lemma stops_ret v : stops_at_failure (Ret v).
Proof. intros w. cbn. split; [constructor|intros; constructor]. Qed.

Lemma stops_throw e : stops_at_failure (Throw e).
Proof. intros w. cbn. split; [constructor|intros; constructor]. Qed.

Lemma stops_call ev : stops_at_failure (call ev).
Proof.
  intros w. cbn. destruct (perform_io ev w) as [[v|e] w1]; cbn.
  - split; [constructor|]. intros _ _. repeat constructor. exists v. reflexivity.
  - split; [constructor|]. discriminate.
Qed.

Lemma stops_bind p k :
  stops_at_failure p -> (forall v, stops_at_failure (k v)) ->
  stops_at_failure (bind p k).
Proof.
  intros Hp Hk w. rewrite run_io_bind. destruct (Hp w) as [Hl Hok].
  destruct (run_io p w) as [[o w1] tr1]. cbn [fst snd] in *.
  destruct o as [v|e]; [|split; [exact Hl|discriminate]].
  specialize (Hok v eq_refl). destruct (Hk v w1) as [Hl2 Hok2].
  destruct (run_io (k v) w1) as [[o2 w2] tr2]. cbn [fst snd] in *. split.
  - destruct tr2 as [|l tr2]; [rewrite app_nil_r; exact Hl|].
    rewrite removelast_app by discriminate. apply Forall_app.
    split; [exact Hok|exact Hl2].
  - intros v2 Hv2. apply Forall_app. split; [exact Hok|exact (Hok2 v2 Hv2)].
Qed.

Lemma stops_merlin_setup dwell_time depth save_path :
  stops_at_failure (merlin_setup dwell_time depth save_path).
Proof.
  unfold merlin_setup.
  repeat (apply stops_bind; [apply stops_call|intros _]).
  apply stops_bind.
  - destruct save_path as [path|].
    + repeat (apply stops_bind; [apply stops_call|intros _]). apply stops_call.
    + apply stops_call.
  - intros _. apply stops_bind; [apply stops_call|intros _]. apply stops_ret.
Qed.

Lemma stops_setup_body aq :
  stops_at_failure (merlin_setup default_dwell_time 6 None ;;
                    microscope_setup default_dwell_time ;; set_nav aq ;; arm).
Proof.
  apply stops_bind; [apply stops_merlin_setup|intros _].
  cbn [microscope_setup bind]. unfold set_nav, arm.
  destruct (unpack2 (nav (shape aq))) as [[h w]|e]; [|apply stops_throw].
  apply stops_bind; [|intros _];
    repeat (apply stops_bind; [apply stops_call|intros _]); apply stops_ret.
Qed.

Lemma stops_before p w t1 l t2 :
  stops_at_failure p ->
  (run_io p w).2 = t1 ++ l :: t2 ->
  Forall accepted t1.
Proof.
  intros Hp Htr. destruct (Hp w) as [Hl _]. rewrite Htr in Hl.
  rewrite removelast_app in Hl by discriminate. apply Forall_app in Hl. tauto.
Qed.

(** The calls of a scope's body, then the one [__exit__]. *)
Lemma run_io_scope_trace (body : prog io_event) : forall w,
  (run_io (try_finally body (call ChanExit)) w).2 =
  (run_io body w).2 ++ [(ChanExit, Ok VNone)].
Proof.
  induction body as [v|e|ev h IH]; intros w; try reflexivity.
  cbn. destruct (perform_io ev w) as [r w1]. specialize (IH r w1).
  destruct (run_io (try_finally (h r) (call ChanExit)) w1) as [[o w2] tr2].
  destruct (run_io (h r) w1) as [[o' w2'] tr2']. cbn in *. rewrite IH. reflexivity.
Qed.

Lemma with_c_stops body w t1 l t2 :
  stops_at_failure body ->
  (run_io (with_c body) w).2 = t1 ++ l :: t2 ->
  l.1 <> ChanExit ->
  Forall accepted t1.
Proof.
  intros Hb Htr Hl. unfold with_c in Htr. cbn in Htr. unfold chan_enter in Htr.
  destruct (next_outcome (script (c w))) as [[e|] rest]; cbn in Htr.
  - destruct t1 as [|x [|y t1]]; [constructor|discriminate Htr|discriminate Htr].
  - match type of Htr with context [run_io _ ?w1] =>
      pose proof (run_io_scope_trace body w1) as Hs;
      destruct (Hb w1) as [Hlast _];
      destruct (run_io (try_finally body (call ChanExit)) w1) as [[o w2] tr2];
      destruct (run_io body w1) as [[o' w2'] tr'] end.
    cbn [fst snd] in *. subst tr2.
    destruct t1 as [|x t1]; [constructor|].
    injection Htr as <- Htr. constructor; [exists VNone; reflexivity|].
    destruct (exists_last (l := l :: t2)) as (t2' & x & Hx); [discriminate|].
    rewrite Hx, app_assoc in Htr. apply app_inj_tail in Htr as [Htr <-].
    destruct t2' as [|l' t2'].
    + cbn in Hx. injection Hx as -> _. destruct Hl. reflexivity.
    + cbn in Hx. injection Hx as <- _.
      subst tr'. rewrite removelast_app in Hlast by discriminate.
      apply Forall_app in Hlast. tauto.
Qed.

Lemma setup_scope_stops aq w t1 l t2 :
  (run_io (setup_and_arm aq) w).2 = t1 ++ l :: t2 ->
  l.1 <> ChanExit ->
  Forall accepted t1.
Proof. apply with_c_stops, stops_setup_body. Qed.

(** X2: the setup-and-arm scope of the run cell, against any endpoint, puts
    on the wire a prefix of its commands in the order of the code and
    nothing else; when it returns normally all of them were sent and the
    descriptor has two navigation axes; [STARTACQUISITION] is on the wire
    only as the last of them, after every configuration command; and every
    call of the scope but [__exit__] is made only after all the calls
    before it returned normally, so each command goes out only once the
    endpoint has accepted the ones before. *)
Theorem setup_scope_sends_in_order (aq : acquisition) (w : world) :
  let out := run_io (setup_and_arm aq) w in
  exists k,
    k <= length (setup_commands aq) /\
    wire (c out.1.2) = wire (c w) ++ take k (setup_commands aq) /\
    (forall v, out.1.1 = Ok v ->
               k = length (setup_commands aq) /\
               exists height width, nav (shape aq) = [height; width]) /\
    (In (CmdCmd "STARTACQUISITION") (take k (setup_commands aq)) ->
     k = length (setup_commands aq)) /\
    (forall t1 l t2,
        out.2 = t1 ++ l :: t2 -> l.1 <> ChanExit -> Forall accepted t1).
Proof.
  intros out. subst out.
  destruct (setup_scope_prefix aq w) as (k & Hle & Hw & Hok).
  exists k. split; [exact Hle|]. split; [exact Hw|]. split; [|split].
  - intros v Hv. split; [exact (Hok v Hv)|exact (setup_scope_ok_two_axes aq w v Hv)].
  - unfold setup_commands in *.
    destruct (unpack2 (nav (shape aq))) as [[h w']|e].
    + apply start_only_last, Hle.
    + cbn. intros Hin. exfalso. cbn in Hle.
      do 8 (destruct k as [|k]; [cbn in Hin; repeat destruct Hin as [Hin|Hin];
                                 try discriminate Hin; destruct Hin|]).
      lia.
  - intros t1 l t2. apply setup_scope_stops.
Qed.

Lemma setup_scope_sends_in_order_witness :
  exists k,
    wire (c (run_io (setup_and_arm aq_scan)
                    {| c := MerlinControl [None; None; Some ProtocolError];
                       stdout := [] |}).1.2)
    = take k (setup_commands aq_scan).
Proof.
  destruct (setup_scope_sends_in_order aq_scan
              {| c := MerlinControl [None; None; Some ProtocolError];
                 stdout := [] |}) as (k & _ & Hw & _).
  exists k. exact Hw.
Defined.

(** X1: [merlin_setup], for any parameters ([dwell_time] any double) and
    against any endpoint, run on an open channel sends a prefix of its
    commands in the order of the code and nothing else, the acquisition time
    being the product of doubles [dwell_time * 1e3]; it leaves the channel
    open, and has sent all of them when it returns normally; every call it
    makes comes after normal answers to all the calls before: the first
    request that fails ends it, nothing is retried or skipped. *)
Theorem merlin_setup_sends_in_order
    (dwell_time : float) (depth : Z) (save_path : option string) (w : world) :
  connected (c w) = true ->
  let out := run_io (merlin_setup dwell_time depth save_path) w in
  connected (c out.1.2) = true /\
  (exists k,
      k <= length (merlin_commands dwell_time depth save_path) /\
      wire (c out.1.2) =
        wire (c w) ++ take k (merlin_commands dwell_time depth save_path) /\
      (forall v, out.1.1 = Ok v ->
                 k = length (merlin_commands dwell_time depth save_path))) /\
  (forall t1 l t2, out.2 = t1 ++ l :: t2 -> Forall accepted t1).
Proof.
  intros Hc out. subst out.
  destruct (sends_merlin_setup dwell_time depth save_path w Hc) as [Ho Hk].
  split; [exact Ho|]. split; [exact Hk|].
  intros t1 l t2. apply stops_before, stops_merlin_setup.
Qed.

Lemma merlin_setup_sends_in_order_witness :
  exists k,
    wire (c (run_io (merlin_setup 0x1.f75104d551d69p-16%float 6 (Some "/data"))
                    {| c := {| connected := true; wire := [];
                               script := [None; None; Some IOError] |};
                       stdout := [] |}).1.2)
    = take k (merlin_commands 0x1.f75104d551d69p-16%float 6 (Some "/data")).
Proof.
  destruct (merlin_setup_sends_in_order 0x1.f75104d551d69p-16%float 6 (Some "/data")
              {| c := {| connected := true; wire := [];
                         script := [None; None; Some IOError] |};
                 stdout := [] |} eq_refl) as (_ & (k & _ & Hw & _) & _).
  exists k. exact Hw.
Defined.

(** The acquisition time on the wire for the default dwell time [1e-3] and
    for [3e-5]: the doubles [1.0] and [0.030000000000000002]. *)
Example merlin_setup_acquisition_time :
  let open := {| c := {| connected := true; wire := []; script := [] |};
                 stdout := [] |} in
  wire (c (run_io (merlin_setup default_dwell_time 6 None) open).1.2) !! 1
  = Some (CmdSet "ACQUISITIONTIME" (VFloat 1%float)) /\
  wire (c (run_io (merlin_setup 0x1.f75104d551d69p-16%float 6 None) open).1.2) !! 1
  = Some (CmdSet "ACQUISITIONTIME" (VFloat 0x1.eb851eb851eb9p-6%float)).
Proof. vm_compute. split; reflexivity. Qed.

(** X3: for a descriptor that does not have two navigation axes the
    setup-and-arm scope always ends in an exception and sends nothing beyond
    the commands of [merlin_setup]: the detector is never armed; against
    an endpoint that accepts everything the exception is the [ValueError] of
    the unpacking in [set_nav], raised after all of [merlin_setup] was sent,
    and the channel is closed. *)
Theorem setup_without_two_axes_never_arms (aq : acquisition) (w : world) :
  length (nav (shape aq)) <> 2 ->
  let out := run_io (setup_and_arm aq) w in
  (exists e, out.1.1 = Raise e) /\
  (exists k, wire (c out.1.2) =
             wire (c w) ++ take k (merlin_commands default_dwell_time 6 None)) /\
  (script (c w) = [] ->
   out.1.1 = Raise ValueError /\
   wire (c out.1.2) = wire (c w) ++ merlin_commands default_dwell_time 6 None /\
   connected (c out.1.2) = false).
Proof.
  intros Hn out. subst out. pose proof (unpack2_not_two _ Hn) as Hu. split; [|split].
  - exact (setup_scope_raises aq ValueError w Hu).
  - destruct (setup_scope_prefix aq w) as (k & _ & Hw & _).
    unfold setup_commands in Hw. rewrite Hu, app_nil_r in Hw. eauto.
  - intros Hs. destruct w as [[conn wr sc] so]. cbn in Hs. subst sc.
    unfold setup_and_arm, set_nav. rewrite Hu. cbn.
    rewrite <- !app_assoc. repeat split.
Qed.

Lemma setup_without_two_axes_never_arms_witness :
  (run_io (setup_and_arm aq_line) {| c := MerlinControl []; stdout := [] |}).1.1
  = Raise ValueError.
Proof.
  exact (proj1 (proj2 (proj2 (setup_without_two_axes_never_arms aq_line
                  {| c := MerlinControl []; stdout := [] |}
                  ltac:(cbn; lia))) eq_refl)).
Defined.

(** X5: [do_scan], against any endpoint and from any state of the channel,
    sends at most the one command [SOFTTRIGGER].  It returns [None] only
    with that command sent; when it raises, the exception is the endpoint's:
    either the connection was refused and nothing was sent, or the
    connection was opened and the answer to [SOFTTRIGGER] was the
    exception, and then the command was sent all the same. *)
Theorem do_scan_sends_the_trigger_or_raises (w : world) :
  let out := run_io do_scan w in
  (out.1.1 = Ok VNone /\
   wire (c out.1.2) = wire (c w) ++ [CmdCmd "SOFTTRIGGER"]) \/
  (exists e rest,
      script (c w) = Some e :: rest /\
      out.1.1 = Raise e /\
      wire (c out.1.2) = wire (c w)) \/
  (exists e rest,
      script (c w) = None :: Some e :: rest /\
      out.1.1 = Raise e /\
      wire (c out.1.2) = wire (c w) ++ [CmdCmd "SOFTTRIGGER"]).
Proof.
  destruct w as [[conn wr sc] so]. unfold do_scan, with_c. cbn.
  unfold chan_enter. cbn. destruct sc as [|[e|] sc]; cbn.
  - left. split; reflexivity.
  - right. left. exists e, sc. repeat split.
  - unfold chan_send. cbn. destruct sc as [|[e|] sc]; cbn.
    + left. split; reflexivity.
    + right. right. exists e, sc. repeat split.
    + left. split; reflexivity.
Qed.

Lemma idle_forever sch : forall cfg,
  terminated (main cfg) ->
  work_queue (pool cfg) = [] ->
  threads (pool cfg) = [] ->
  exec sch cfg = (cfg, []).
Proof.
  induction sch as [|a sch IH]; intros cfg Hm Hq Ht; [reflexivity|].
  rewrite exec_cons.
  assert (Hs : step a cfg = (cfg, [])).
  { destruct a; cbn.
    - apply step_main_terminated, Hm.
    - unfold step_start. rewrite Hq. reflexivity.
    - unfold step_work. rewrite Ht. reflexivity. }
  rewrite Hs, (IH cfg Hm Hq Ht). reflexivity.
Qed.

(** X4: the run cell reaches [ctx.run_udf] only with the detector fully
    configured and armed; otherwise it ends with the exception of the setup,
    and stays as it is under every further schedule: nothing was submitted
    to the pool, the global state is untouched, the channel is closed. *)
Theorem setup_gates_the_acquisition
    (endpoint : list (option exn)) (udf : prog main_event) (aq : acquisition) :
  exists n,
    let out := exec (replicate n Main) (notebook endpoint (run_cell udf aq)) in
    connected (c (shared out.1)) = false /\
    pool out.1 = ThreadPoolExecutor 1 /\
    acquisition_state out.1 = AcquisitionState_init /\
    ((main out.1 = run_and_await udf /\
      wire (c (shared out.1)) = setup_commands aq /\
      exists height width, nav (shape aq) = [height; width]) \/
     (exists e, main out.1 = Throw e /\
                forall sch, exec sch out.1 = (out.1, []))).
Proof.
  set (w1 := {| c := MerlinControl endpoint;
                stdout := [Str "Connecting Merlin control..."] |}).
  destruct (run_io (setup_and_arm aq) w1) as [[o w2] tr] eqn:E.
  exists (S (length tr)). cbn [replicate]. rewrite exec_cons.
  change (step Main (notebook endpoint (run_cell udf aq)))
    with ({| main := bind (embed IO (setup_and_arm aq))
                          (fun _ => run_and_await udf);
             shared := w1;
             acquisition_state := AcquisitionState_init;
             pool := ThreadPoolExecutor 1 |},
          [LMain (IO (Print (Str "Connecting Merlin control..."))) (Ok VNone)]).
  cbv beta iota.
  erewrite (exec_main_io (fun p => bind p (fun _ => run_and_await udf)));
    [|apply context_bind|reflexivity|exact E].
  cbn [fst snd main shared pool acquisition_state].
  pose proof (with_c_closes _ w1 eq_refl : connected
    (c (run_io (setup_and_arm aq) w1).1.2) = false) as Hc.
  destruct (setup_scope_prefix aq w1) as (k & Hle & Hw & Hok).
  pose proof (setup_scope_ok_two_axes aq w1) as H2.
  rewrite E in Hc, Hw, Hok, H2. cbn [fst snd] in *.
  split; [exact Hc|]. split; [reflexivity|]. split; [reflexivity|].
  destruct o as [v|e]; cbn [reply bind].
  - left. split; [reflexivity|]. split; [|exact (H2 v eq_refl)].
    rewrite Hw, (Hok v eq_refl), firstn_all. reflexivity.
  - right. exists e. split; [reflexivity|]. intros sch.
    apply idle_forever; [exact I|reflexivity..].
Qed.

(** ** The main thread and the worker never share the channel *)











(** ** When the cell ends *)

Lemma step_await_label a cfg fut r :
  In (FutureResult fut, r) (main_trace (step a cfg).2) ->
  futures (pool (step a cfg).1) !! fut = Some (Finished r).
Proof.
  destruct a.
  - cbn [step]. unfold step_main.
    destruct (main cfg) as [v|e|ev k]; try (cbn; intros H; contradiction).
    destruct ev as [io|[]| | |fn|f]; cbn.
    + destruct (perform_io io (shared cfg)). cbn. intros [H|[]]. discriminate.
    + intros [H|[]]. discriminate.
    + intros [H|[]]. discriminate.
    + intros [H|[]]. discriminate.
    + intros [H|[]]. discriminate.
    + destruct (futures (pool cfg) !! f) as [[| |r']|] eqn:E;
        try (cbn; intros H; contradiction).
      cbn. intros [[= <- <-]|[]]. exact E.
  - destruct (worker_step_view Start cfg ltac:(discriminate)) as [_ Hl].
    rewrite Hl. intros [].
  - destruct (worker_step_view (Work i) cfg ltac:(discriminate)) as [_ Hl].
    rewrite Hl. intros [].
Qed.

Lemma serial_finished_done ex (done : list (result value)) f r :
  futures ex = (Finished <$> done)
               ++ replicate (length (threads ex)) Running
               ++ replicate (length (work_queue ex)) Pending ->
  futures ex !! f = Some (Finished r) -> f < length done.
Proof.
  intros Hf Hl. destruct (decide (f < length done)) as [?|Hge]; [assumption|].
  exfalso. rewrite Hf, lookup_app_r in Hl by (rewrite length_fmap; lia).
  apply lookup_app_Some in Hl.
  destruct Hl as [Hl|[_ Hl]]; apply lookup_replicate in Hl; destruct Hl; discriminate.
Qed.

Lemma finished_persists_step a cfg f r :
  serial (pool cfg) ->
  futures (pool cfg) !! f = Some (Finished r) ->
  futures (pool (step a cfg).1) !! f = Some (Finished r).
Proof.
  intros (Hm & Hl & done & Hf & Ht & Hq) Hfin.
  pose proof (serial_finished_done _ _ _ _ Hf Hfin) as Hlt.
  destruct a; cbn [step].
  - unfold step_main. destruct (main cfg) as [v|e|ev k]; try exact Hfin.
    destruct ev as [io|[]| | |fn|fut]; cbn; try exact Hfin.
    + destruct (perform_io io (shared cfg)). exact Hfin.
    + apply lookup_app_l_Some, Hfin.
    + destruct (futures (pool cfg) !! fut) as [[| |r']|]; exact Hfin.
  - unfold step_start. destruct (work_queue (pool cfg)) as [|[fut fn] rest] eqn:Eq;
      [exact Hfin|].
    destruct (decide _); [|exact Hfin]. cbn.
    cbn in Hq. injection Hq as Hfut _.
    rewrite list_lookup_insert_ne by lia. exact Hfin.
  - unfold step_work. destruct (threads (pool cfg) !! i) as [[fut p]|] eqn:Ei;
      [|exact Hfin].
    destruct (threads (pool cfg)) as [|t ts] eqn:Et; [discriminate|].
    destruct ts; [|cbn in Hl; lia].
    destruct i; [|discriminate]. cbn in Ei. injection Ei as ->.
    cbn in Ht. injection Ht as Hfut.
    destruct p as [v|e|ev k]; cbn.
    + rewrite list_lookup_insert_ne by lia. exact Hfin.
    + rewrite list_lookup_insert_ne by lia. exact Hfin.
    + destruct (perform_io ev (shared cfg)). exact Hfin.
Qed.

Lemma serial_step a cfg : serial (pool cfg) -> serial (pool (step a cfg).1).
Proof.
  destruct a; [apply serial_main|apply serial_start|apply serial_work].
Qed.

Lemma finished_persists sch : forall cfg f r,
  serial (pool cfg) ->
  futures (pool cfg) !! f = Some (Finished r) ->
  futures (pool (exec sch cfg).1) !! f = Some (Finished r).
Proof.
  induction sch as [|a sch IH]; intros cfg f r Hs Hf; [exact Hf|].
  rewrite exec_cons_1. apply IH; [apply serial_step, Hs|].
  apply finished_persists_step; assumption.
Qed.

Lemma await_answer_persists sch : forall cfg fut r,
  serial (pool cfg) ->
  In (FutureResult fut, r) (main_trace (exec sch cfg).2) ->
  futures (pool (exec sch cfg).1) !! fut = Some (Finished r).
Proof.
  induction sch as [|a sch IH]; intros cfg fut r Hs Hin; [destruct Hin|].
  rewrite exec_cons_2, main_trace_app in Hin. rewrite exec_cons_1.
  apply in_app_or in Hin. destruct Hin as [Hin|Hin].
  - apply finished_persists; [apply serial_step, Hs|].
    apply step_await_label, Hin.
  - apply IH; [apply serial_step, Hs|exact Hin].
Qed.

(** X9: once [ctx.run_udf] has ended with a future stored, the cell cannot
    end before the background function has: under every schedule, in a pool
    of one worker, when the cell has ended the stored future is finished,
    and the cell ended with what that future holds (its exception, else the
    exception of [ctx.run_udf], else normally). *)
Theorem cell_ends_only_after_the_scan
    (u : prog main_event) (cfg : config) (fut : handle) (sch : list action) :
  terminated u ->
  main cfg = run_and_await u ->
  trigger_result (acquisition_state cfg) = VFuture fut ->
  serial (pool cfg) ->
  terminated (main (exec sch cfg).1) ->
  exists r, futures (pool (exec sch cfg).1) !! fut = Some (Finished r) /\
            main (exec sch cfg).1 = outcome u r.
Proof.
  intros Hu Hm Hst Hs Ht.
  destruct (await_at_teardown u cfg fut sch Hu Hm Hst Ht) as (r & Hin & Ho).
  exists r. split; [|exact Ho]. apply await_answer_persists; assumption.
Qed.

Lemma cell_ends_only_after_the_scan_witness :
  exists r, futures (pool (exec (replicate 4 Main) scan_failed).1) !! 0
            = Some (Finished r) /\
            main (exec (replicate 4 Main) scan_failed).1 = outcome (Ret VNone) r.
Proof.
  refine (cell_ends_only_after_the_scan (Ret VNone) scan_failed 0
            (replicate 4 Main) I scan_failed_main scan_failed_state _ _).
  - apply serial_exec, serial_new.
  - vm_compute. exact I.
Defined.

Ltac follow :=
  repeat match goal with
    | |- _ /\ _ => split
    | |- True => exact I
    | |- false = true -> _ => discriminate
    | |- true = true -> _ => intros _; eauto
    | |- forall r : result value, _ => intros [?|?]; cbn
    end.

Lemma ending_with_future u fut n :
  terminated u ->
  safe (watch_ending fut)
       (fun m _ => m.2 = true ->
                   (exists v, u = Ret v) /\ exists v, m.1 = Some (Ok v))
       (run_and_await u) {| trigger_result := VFuture fut |} n (None, false).
Proof.
  unfold run_and_await, teardown. destruct u as [v|e|ev k]; intros []; cbn;
    unfold watch_ending, watch_finished, watch_result; cbn; rewrite Nat.eqb_refl; follow.
Qed.

Lemma ending_without_future u n :
  terminated u ->
  safe (watch_ending 0)
       (fun m _ => m.2 = true -> exists v, u = Ret v)
       (run_and_await u) {| trigger_result := VNone |} n (None, false).
Proof.
  unfold run_and_await, teardown. destruct u as [v|e|ev k]; intros []; cbn;
    unfold watch_ending, watch_finished; cbn; follow.
Qed.

Lemma watch_ending_split fut tr : forall m,
  foldl (watch_ending fut) m tr =
  (foldl (watch_result fut) m.1 tr,
   foldl watch_finished m.2 tr).
Proof.
  induction tr as [|l tr IH]; intros [m b]; [reflexivity|].
  cbn [foldl]. rewrite IH. reflexivity.
Qed.

Lemma finished_line_seen tr r : forall b,
  In (IO (Print (Str "Finished.")), r) tr ->
  foldl watch_finished b tr = true.
Proof.
  assert (Ht : forall tr', foldl watch_finished true tr' = true).
  { induction tr' as [|l tr' IH]; [reflexivity|exact IH]. }
  induction tr as [|l tr IH]; intros b; [intros []|].
  intros [->|Hin]; cbn [foldl].
  - unfold watch_finished at 2. cbn. rewrite orb_true_r. apply Ht.
  - apply IH, Hin.
Qed.

(** X6: the run cell prints its last line, [Finished.], only when
    [ctx.run_udf] returned normally and, if a future is stored, only after
    the await of that future returned normally: never after a failed
    acquisition or a failed scan, under every schedule. *)
Theorem finished_is_printed_only_after_success
    (u : prog main_event) (cfg : config) (fut : handle) (sch : list action) :
  terminated u ->
  main cfg = run_and_await u ->
  trigger_result (acquisition_state cfg) = VNone \/
  trigger_result (acquisition_state cfg) = VFuture fut ->
  In (IO (Print (Str "Finished.")), Ok VNone) (main_trace (exec sch cfg).2) ->
  (exists v, u = Ret v) /\
  (trigger_result (acquisition_state cfg) = VFuture fut ->
   exists v, In (FutureResult fut, Ok v) (main_trace (exec sch cfg).2)).
Proof.
  intros Hu Hm Hst Hin.
  destruct (acquisition_state cfg) as [st] eqn:Est. cbn in Hst.
  destruct Hst as [->| ->].
  - pose proof (safe_exec (watch_ending 0)
                  (fun m _ => m.2 = true -> exists v, u = Ret v) sch cfg (None, false))
      as H.
    rewrite Hm, Est in H. specialize (H (ending_without_future u _ Hu)).
    rewrite watch_ending_split in H. cbn [fst snd] in H.
    split; [|discriminate]. apply H. apply (finished_line_seen _ (Ok VNone)), Hin.
  - pose proof (safe_exec (watch_ending fut)
                  (fun m _ => m.2 = true ->
                     (exists v, u = Ret v) /\ exists v, m.1 = Some (Ok v))
                  sch cfg (None, false)) as H.
    rewrite Hm, Est in H. specialize (H (ending_with_future u fut _ Hu)).
    rewrite watch_ending_split in H. cbn [fst snd] in H.
    destruct (H (finished_line_seen _ (Ok VNone) false Hin)) as [Hr [v Hv]].
    split; [exact Hr|]. intros _. exists v. apply watch_result_seen, Hv.
Qed.

Lemma scan_done_main : main scan_done = run_and_await (Ret VNone).
Proof. vm_compute. reflexivity. Qed.

Lemma scan_done_state :
  trigger_result (acquisition_state scan_done) = VFuture 0.
Proof. vm_compute. reflexivity. Qed.

Lemma scan_done_finished :
  In (IO (Print (Str "Finished.")), Ok VNone)
     (main_trace (exec (replicate 6 Main) scan_done).2).
Proof. vm_compute. tauto. Qed.

Lemma finished_is_printed_only_after_success_witness :
  exists v, In (FutureResult 0, Ok v)
               (main_trace (exec (replicate 6 Main) scan_done).2).
Proof.
  exact (proj2 (finished_is_printed_only_after_success
                  (Ret VNone) scan_done 0 (replicate 6 Main) I scan_done_main
                  (or_intror scan_done_state) scan_done_finished)
               scan_done_state).
Defined.

(** ** Arming comes first *)

Lemma armed_safe (p : prog main_event) : forall st n,
  safe watch_arming (fun m _ => m.2 = true) p st n (true, true).
Proof.
  induction p as [v|e|ev k IH]; intros st n; cbn [safe]; [auto..|].
  split; [reflexivity|].
  assert (Hw : forall r, watch_arming (true, true) (ev, r) = (true, true)).
  { intros r. unfold watch_arming. cbn. rewrite orb_true_r. reflexivity. }
  destruct (foreseen st n ev) as [r|]; [|intros r]; rewrite Hw; apply IH.
Qed.

Lemma arming_run_cell udf aq :
  safe watch_arming (fun m _ => m.2 = true) (run_cell udf aq)
       AcquisitionState_init 0 (false, true).
Proof.
  unfold run_cell, setup_and_arm, with_c, merlin_setup, microscope_setup,
    set_nav, arm.
  destruct (unpack2 (nav (shape aq))) as [[h w']|e]; cbn;
    repeat match goal with
      | |- safe _ _ (run_and_await _) _ _ _ => apply armed_safe
      | |- _ /\ _ => split
      | |- True => exact I
      | |- _ = true => reflexivity
      | |- forall r : result value, _ => intros [?|?]; cbn
      end.
Qed.

Lemma arming_spoiled tr : forall a, (foldl watch_arming (a, false) tr).2 = false.
Proof.
  induction tr as [|l tr IH]; intros a; [reflexivity|]. cbn [foldl].
  unfold watch_arming at 2. cbn [fst snd andb]. apply IH.
Qed.

Lemma arming_before_submit t1 : forall a fn r t2,
  (foldl watch_arming (a, true) (t1 ++ (PoolSubmit fn, r) :: t2)).2 = true ->
  a = true \/ exists l, In l t1 /\ is_armed_label l = true.
Proof.
  induction t1 as [|l t1 IH]; intros a fn r t2 H.
  - cbn [app foldl] in H. unfold watch_arming at 2 in H. cbn in H.
    destruct a; [auto|]. rewrite arming_spoiled in H. discriminate.
  - cbn [app foldl] in H. unfold watch_arming at 2 in H. cbn [fst snd andb] in H.
    destruct (negb (is_submit l.1) || a) eqn:E.
    + destruct (IH _ _ _ _ H) as [Ha|(l' & Hin & Hl')].
      * apply orb_true_iff in Ha as [Ha|Ha]; [auto|].
        right. exists l. split; [left; reflexivity|exact Ha].
      * right. exists l'. split; [right; exact Hin|exact Hl'].
    + rewrite arming_spoiled in H. discriminate.
Qed.

Lemma armed_label_inv l :
  is_armed_label l = true ->
  exists v, l = (IO (ChanCmd "STARTACQUISITION"), Ok v).
Proof.
  destruct l as [[[]| | | | |] [v|e]]; try discriminate. cbn.
  intros H. apply String.eqb_eq in H. subst. eauto.
Qed.

(** X8: in the run cell, under every schedule and whatever [ctx.run_udf]
    does, nothing is submitted to the pool before the detector has accepted
    [STARTACQUISITION]: every submission of the main thread comes after that
    answer in its trace. *)
Theorem scan_is_submitted_only_after_arming
    (udf : prog main_event) (aq : acquisition)
    (endpoint : list (option exn)) (sch : list action) :
  forall t1 fn r t2,
    main_trace (exec sch (notebook endpoint (run_cell udf aq))).2 =
      t1 ++ (PoolSubmit fn, r) :: t2 ->
    exists v, In (IO (ChanCmd "STARTACQUISITION"), Ok v) t1.
Proof.
  intros t1 fn r t2 Htr.
  pose proof (safe_exec watch_arming (fun m _ => m.2 = true) sch
                (notebook endpoint (run_cell udf aq)) (false, true)
                (arming_run_cell udf aq)) as H.
  cbn beta in H. rewrite Htr in H.
  destruct (arming_before_submit _ _ _ _ _ H) as [Ha|(l & Hin & Hl)]; [discriminate|].
  destruct (armed_label_inv l Hl) as [v ->]. eauto.
Qed.

Lemma scan_is_submitted_only_after_arming_trace :
  main_trace (exec (replicate 22 Main)
                   (notebook [] (run_cell (run_udf (Ret VNone) two_frames aq_scan)
                                          aq_scan))).2 =
  take 20 (main_trace
             (exec (replicate 22 Main)
                   (notebook [] (run_cell (run_udf (Ret VNone) two_frames aq_scan)
                                          aq_scan))).2)
  ++ (PoolSubmit do_scan, Ok (VFuture 0))
  :: drop 21 (main_trace
                (exec (replicate 22 Main)
                      (notebook [] (run_cell (run_udf (Ret VNone) two_frames aq_scan)
                                             aq_scan))).2).
Proof. vm_compute. reflexivity. Qed.

Lemma scan_is_submitted_only_after_arming_witness :
  exists v,
    In (IO (ChanCmd "STARTACQUISITION"), Ok v)
       (take 20 (main_trace
                   (exec (replicate 22 Main)
                         (notebook [] (run_cell (run_udf (Ret VNone) two_frames
                                                         aq_scan) aq_scan))).2)).
Proof.
  exact (scan_is_submitted_only_after_arming
           (run_udf (Ret VNone) two_frames aq_scan) aq_scan [] (replicate 22 Main)
           _ do_scan (Ok (VFuture 0)) _
           scan_is_submitted_only_after_arming_trace).
Defined.

(** ** Two triggers in one session *)

Local Arguments Nat.eqb : simpl never.

Lemma watch_two_split first second tr : forall m,
  foldl (watch_two first second) m tr =
  (foldl (watch_result first) m.1 tr, foldl (watch_result second) m.2 tr).
Proof.
  induction tr as [|l tr IH]; intros [m1 m2]; [reflexivity|].
  cbn [foldl]. rewrite IH. reflexivity.
Qed.

Lemma watch_result_unseen fut tr :
  foldl (watch_result fut) None tr = None ->
  forall r, ~ In (FutureResult fut, r) tr.
Proof.
  induction tr as [|[ev r'] tr IH] using rev_ind; intros H r Hin; [destruct Hin|].
  rewrite foldl_app in H. cbn [foldl] in H. unfold watch_result at 1 in H.
  cbn [fst snd] in H. apply in_app_or in Hin.
  destruct ev as [| | | | |f];
    try (destruct Hin as [Hin|[Hin|[]]]; [exact (IH H r Hin)|discriminate Hin]).
  destruct (Nat.eqb f fut) eqn:E; [discriminate|].
  destruct Hin as [Hin|[Hin|[]]]; [exact (IH H r Hin)|].
  injection Hin as -> _. rewrite Nat.eqb_refl in E. discriminate.
Qed.

Lemma second_trigger_safe aq height width n st :
  nav (shape aq) = [height; width] ->
  safe (watch_two n (S n))
       (fun m p => m.1 = None /\
                   (terminated p ->
                    exists r, m.2 = Some r /\ p = outcome (Ret VNone) r))
       (run_and_await (bind (trigger aq) (fun _ => trigger aq))) st n (None, None).
Proof.
  intros H. unfold run_and_await, teardown, trigger, watch_two, watch_result.
  rewrite H. cbn.
  assert (E : Nat.eqb (S n) n = false) by (apply Nat.eqb_neq; lia).
  rewrite !E, !Nat.eqb_refl.
  repeat match goal with
    | |- _ /\ _ => split
    | |- True => exact I
    | |- None = None => reflexivity
    | |- False -> _ => intros []
    | |- True -> _ => intros _; eexists; split; reflexivity
    | |- forall r : result value, _ => intros [?|?]; cbn
    end.
Qed.

(** X10: when [trigger] is called twice in one session the second call
    overwrites the stored future: under every schedule the teardown never
    awaits the future of the first call, so an exception of the first scan
    is never re-raised, and the cell ends with what the second future
    holds. *)
Theorem second_trigger_hides_the_first
    (aq : acquisition) (height width : Z) (cfg : config) (sch : list action) :
  nav (shape aq) = [height; width] ->
  main cfg = run_and_await (bind (trigger aq) (fun _ => trigger aq)) ->
  let first := length (futures (pool cfg)) in
  (forall r, ~ In (FutureResult first, r) (main_trace (exec sch cfg).2)) /\
  (terminated (main (exec sch cfg).1) ->
   exists r, In (FutureResult (S first), r) (main_trace (exec sch cfg).2) /\
             main (exec sch cfg).1 = outcome (Ret VNone) r).
Proof.
  intros H Hm first.
  pose proof (safe_exec (watch_two first (S first))
                (fun m p => m.1 = None /\
                   (terminated p ->
                    exists r, m.2 = Some r /\ p = outcome (Ret VNone) r))
                sch cfg (None, None)) as Hs.
  rewrite Hm in Hs.
  specialize (Hs (second_trigger_safe aq height width first _ H)).
  rewrite watch_two_split in Hs. cbn [fst snd] in Hs. destruct Hs as [H1 H2].
  split; [exact (watch_result_unseen _ _ H1)|].
  intros Ht. destruct (H2 Ht) as (r & Hr & Ho).
  exists r. split; [apply watch_result_seen, Hr|exact Ho].
Qed.

Lemma second_trigger_hides_the_first_witness :
  ~ In (FutureResult 0, Raise IOError)
       (main_trace
          (exec (replicate 8 Main ++ Start :: replicate 5 (Work 0)
                 ++ Start :: replicate 5 (Work 0) ++ replicate 6 Main)
                (notebook [None; Some IOError]
                   (run_and_await (bind (trigger aq_scan)
                                        (fun _ => trigger aq_scan))))).2).
Proof.
  exact (proj1 (second_trigger_hides_the_first aq_scan 128 128
                  (notebook [None; Some IOError]
                     (run_and_await (bind (trigger aq_scan)
                                          (fun _ => trigger aq_scan))))
                  (replicate 8 Main ++ Start :: replicate 5 (Work 0)
                   ++ Start :: replicate 5 (Work 0) ++ replicate 6 Main)
                  eq_refl eq_refl) (Raise IOError)).
Defined.

(** The first scan failed, the second succeeded: the cell ends normally. *)
Example lost_exception :
  let out := exec (replicate 8 Main ++ Start :: replicate 5 (Work 0)
                   ++ Start :: replicate 5 (Work 0) ++ replicate 6 Main)
                  (notebook [None; Some IOError]
                     (run_and_await (bind (trigger aq_scan)
                                          (fun _ => trigger aq_scan)))) in
  futures (pool out.1) = [Finished (Raise IOError); Finished (Ok VNone)] /\
  main out.1 = Ret VNone.
Proof. vm_compute. split; reflexivity. Qed.
